(** * The search driver of the Peloton query optimizer

    A shallow embedding of [src/optimizer/optimizer.cpp] (class
    [peloton::optimizer::Optimizer]): the top-level driver
    [BuildPelotonPlanTree], exploration, implementation, costing
    ([OptimizeGroup], [OptimizeExpression]), extraction
    ([ChooseBestPlan]), rule application ([TransformExpression]) and memo
    insertion ([RecordTransformedExpression] and its helpers).

    The C++ mutates one optimizer object and a heap of shared
    [GroupExpression] objects; here every member function is a
    computation in a state-and-failure monad over that store.  The
    recursive member functions are not structurally recursive, so they
    take a fuel argument that bounds the depth of the call stack. *)

From Stdlib Require Import ZArith.
From stdpp Require Import base option list gmap strings pretty.

Local Open Scope Z_scope.

(** ** Collaborators outside the driver

    The operator catalogue, the property system, the cost model, the
    parser's statements and the executor's plans are declared in headers
    that [optimizer.cpp] only includes.  The driver uses them through the
    member functions listed here. *)

Class Collaborators := {
  (** [Operator]: [IsLogical()], [IsPhysical()],
      [RequiredInputProperties()]. *)
  Operator : Type;
  PropertySet : Type;
  PropertySet_eq_dec :: EqDecision PropertySet;
  PropertySet_countable :: Countable PropertySet;
  IsLogical : Operator → bool;
  IsPhysical : Operator → bool;
  RequiredInputProperties : Operator → list PropertySet;
  (** [PropertySet()], the default-constructed property set, and
      [operator>=] on property sets. *)
  PropertySet_default : PropertySet;
  PropertySet_ge : PropertySet → PropertySet → bool;
  (** [double] costs with their [<], and [shared_ptr<Stats>]. *)
  Cost : Type;
  Cost_lt : Cost → Cost → bool;
  Stats : Type;
  (** The cost and statistics tables a [GroupExpression] carries, read by
      [GetCost] and [GetStats] and written by [DeriveStatsAndCost]. *)
  CostTable : Type;
  CostTable_empty : CostTable;
  CostTable_GetCost : CostTable → PropertySet → Cost;
  CostTable_GetStats : CostTable → PropertySet → Stats;
  CostTable_Derive :
    Operator → CostTable → PropertySet → list PropertySet →
    list Stats → list Cost → CostTable;
  (** [Pattern], [parser::SQLStatement], [planner::AbstractPlan] and the
      optimizer's [column_manager] member. *)
  Pattern : Type;
  SQLStatement : Type;
  AbstractPlan : Type;
  ColumnManager : Type;
}.

(** [GroupID] is a signed integer; [UNDEFINED_GROUP] is the sentinel for
    "not yet assigned". *)
Definition GroupID := Z.

Section DataModel.
Context `{Collaborators}.

(** [OpExpression]: an operator with its child operator trees. *)
#[warnings="-register-all"]
Inductive OpExpression :=
| OpExpr (op : Operator) (children : list OpExpression).

Definition OpExpression_Op (e : OpExpression) : Operator :=
  match e with OpExpr op _ => op end.

Definition OpExpression_Children (e : OpExpression) : list OpExpression :=
  match e with OpExpr _ cs => cs end.

(** [op->PushChild(child_op)]. *)
Definition PushChild (e : OpExpression) (c : OpExpression) : OpExpression :=
  match e with OpExpr op cs => OpExpr op (cs ++ [c]) end.

(** [Rule]: [GetMatchPattern()], [Check(plan)] and
    [Transform(plan, transformed)], whose output vector is the result. *)
Record Rule := {
  GetMatchPattern : Pattern;
  Check : OpExpression → bool;
  Transform : OpExpression → list OpExpression;
}.

(** Modelled from the spec: the [GroupExpression] class is declared
    outside this file.  An expression is
    [(operator, child group ids, owning group)] together with its
    per-property cost tables (spec, section 3). *)
Record GroupExpression := {
  Op : Operator;
  GetChildGroupIDs : list GroupID;
  GetGroupID : GroupID;
  cost_table : CostTable;
}.

(** A [std::shared_ptr<GroupExpression>] is an address in the store of
    group expressions; the null pointer is [None] where it can occur. *)
Definition GExprPtr := nat.

(** Modelled from the spec: the [Group] class is declared outside this
    file.  [{ expressions, explored, implemented, best }] of the spec's
    data model (section 3), [best] mapping a required property set to the
    cheapest expression and its cost. *)
Record Group := {
  GetExpressions : list GExprPtr;
  HasExplored : bool;
  HasImplemented : bool;
  lowest_cost_expressions : gmap PropertySet (Cost * GExprPtr);
}.

(** [group->GetBestExpression(requirements)]: null when nothing is bound
    (the driver compares the result with [nullptr] in [OptimizeGroup]). *)
Definition GetBestExpression (g : Group) (requirements : PropertySet)
  : option GExprPtr :=
  snd <$> lowest_cost_expressions g !! requirements.

(** Modelled from the spec: [Group::SetExpressionCost] is declared outside
    this file.  Section 4.7, step 2c: the binding for [requirements] is
    updated when the new cost is strictly lower than the incumbent; the
    first candidate has no incumbent and is registered. *)
Definition Group_SetExpressionCost (g : Group) (gexpr : GExprPtr)
    (cost : Cost) (requirements : PropertySet) : Group :=
  match lowest_cost_expressions g !! requirements with
  | Some (incumbent, _) =>
      if Cost_lt cost incumbent
      then {| GetExpressions := GetExpressions g;
              HasExplored := HasExplored g;
              HasImplemented := HasImplemented g;
              lowest_cost_expressions :=
                <[requirements := (cost, gexpr)]> (lowest_cost_expressions g) |}
      else g
  | None =>
      {| GetExpressions := GetExpressions g;
         HasExplored := HasExplored g;
         HasImplemented := HasImplemented g;
         lowest_cost_expressions :=
           <[requirements := (cost, gexpr)]> (lowest_cost_expressions g) |}
  end.

Definition Group_SetExplorationFlag (g : Group) : Group :=
  {| GetExpressions := GetExpressions g;
     HasExplored := true;
     HasImplemented := HasImplemented g;
     lowest_cost_expressions := lowest_cost_expressions g |}.

Definition Group_SetImplementationFlag (g : Group) : Group :=
  {| GetExpressions := GetExpressions g;
     HasExplored := HasExplored g;
     HasImplemented := true;
     lowest_cost_expressions := lowest_cost_expressions g |}.

(** The optimizer's mutable state: the memo's groups, the store that the
    shared pointers to group expressions point into, and the column
    manager handed to the query converters. *)
Record State := {
  groups : gmap GroupID Group;
  gexprs : list GroupExpression;
  column_manager : ColumnManager;
}.

(** ** Ghost log

    Calls whose arguments the properties below talk about are recorded,
    with the state in which they were made; a call of
    [RecordTransformedExpression] also with the state in which it handed
    its group expression to the memo.  The log is never read by the
    code. *)
Inductive Event :=
| EvTransformExpression (gexpr : GExprPtr) (rule : Rule)
| EvRecord (pre : State) (expr : OpExpression) (target : GroupID)
           (handed : State) (gexpr : GExprPtr) (is_new : bool)
| EvDeriveStatsAndCost (gexpr : GExprPtr) (output_properties : PropertySet)
                       (input_properties_list : list PropertySet)
| EvSetExpressionCost (pre : State) (group : GroupID) (gexpr : GExprPtr)
                      (cost : Cost) (requirements : PropertySet).

Record World := {
  st : State;
  log : list Event;
}.

(** ** Outcomes

    What a call can end with instead of a value.  The first four are
    what the C++ does: a failed [PL_ASSERT]/[assert], a dereferenced null
    [shared_ptr], a vector indexed past its end, a group id the memo
    does not hold; [OutOfFuel] is the model's call-depth bound.  [NoPlan]
    and [Cancelled] are the structured errors of the spec's taxonomy
    (section 7). *)
Inductive Failure :=
| AssertionFailed
| NullDereference
| OutOfRange
| UnknownGroup
| OutOfFuel
| NoPlan
| Cancelled.

Inductive Outcome (A : Type) :=
| Ok (a : A)
| Err (f : Failure).
Global Arguments Ok {A} a.
Global Arguments Err {A} f.

Definition M (A : Type) : Type := World → Outcome (A * World).

Definition ret {A} (a : A) : M A := λ w, Ok (a, w).

Definition bind {A B} (m : M A) (k : A → M B) : M B :=
  λ w, match m w with
       | Ok (a, w') => k a w'
       | Err f => Err f
       end.

Definition fail {A} (f : Failure) : M A := λ _, Err f.

End DataModel.

Global Instance M_ret `{Collaborators} : MRet M := @ret _.
Global Instance M_bind `{Collaborators} : MBind M := λ A B k m, bind m k.

(** ** The memo, the binding iterator, the rule set and the converters

    [Memo::InsertExpression], [ItemBindingIterator], the rules registered
    by the constructor and the query/plan converters live in other files
    of the repository.  [InsertExpression] returns whether the expression
    was new and may update any part of the state (it sets the group id of
    the expression it is given).  The binding iterator is taken as the
    sequence of bound plans it enumerates for the state it was
    constructed in. *)
Class Components `{Collaborators} := {
  UNDEFINED_GROUP : GroupID;
  InsertExpression : State → GExprPtr → GroupID → State * bool;
  ItemBindings : State → GExprPtr → Pattern → list OpExpression;
  logical_transformation_rules_ : list Rule;
  physical_implementation_rules_ : list Rule;
  ConvertQueryToOpExpression :
    ColumnManager → SQLStatement → OpExpression * ColumnManager;
  GetProperties : ColumnManager → SQLStatement → PropertySet * ColumnManager;
  ConvertOpExpressionToPlan : OpExpression → AbstractPlan;
}.

Section Optimizer.
Context `{Components}.

(** ** Primitive steps *)

Definition get_state : M State := λ w, Ok (st w, w).

Definition put_state (s : State) : M unit :=
  λ w, Ok (tt, {| st := s; log := log w |}).

Definition emit (ev : Event) : M unit :=
  λ w, Ok (tt, {| st := st w; log := log w ++ [ev] |}).

(** [PL_ASSERT(cond)] and [assert(cond)], assertions enabled. *)
Definition PL_ASSERT (cond : bool) : M unit :=
  if cond then ret tt else fail AssertionFailed.

(** [*gexpr] for a non-null shared pointer. *)
Definition deref (gexpr : GExprPtr) : M GroupExpression :=
  s ← get_state;
  match gexprs s !! gexpr with
  | Some e => ret e
  | None => fail NullDereference
  end.

(** [gexpr->...] for a shared pointer that may be null. *)
Definition deref_shared (gexpr : option GExprPtr) : M GroupExpression :=
  match gexpr with
  | Some p => deref p
  | None => fail NullDereference
  end.

(** [std::make_shared<GroupExpression>(...)]. *)
Definition make_shared (e : GroupExpression) : M GExprPtr :=
  s ← get_state;
  put_state {| groups := groups s;
               gexprs := gexprs s ++ [e];
               column_manager := column_manager s |};;
  ret (length (gexprs s)).

(** [memo.GetGroupByID(id)]. *)
Definition GetGroupByID (id : GroupID) : M Group :=
  s ← get_state;
  match groups s !! id with
  | Some g => ret g
  | None => fail UnknownGroup
  end.

(** A mutating member call [memo.GetGroupByID(id)->f(...)]. *)
Definition update_group (id : GroupID) (f : Group → Group) : M unit :=
  g ← GetGroupByID id;
  s ← get_state;
  put_state {| groups := <[id := f g]> (groups s);
               gexprs := gexprs s;
               column_manager := column_manager s |}.

(** [v[i]] on a [std::vector]. *)
Definition at_index {A} (v : list A) (i : nat) : M A :=
  match v !! i with
  | Some x => ret x
  | None => fail OutOfRange
  end.

(** Range-based [for] over a snapshot of a vector. *)
Fixpoint for_each {A} (l : list A) (body : A → M unit) : M unit :=
  match l with
  | [] => ret tt
  | x :: l' => body x;; for_each l' body
  end.

(** A loop that carries local variables [acc] across its iterations. *)
Fixpoint for_fold {A B} (l : list A) (acc : B) (body : B → A → M B) : M B :=
  match l with
  | [] => ret acc
  | x :: l' => acc' ← body acc x; for_fold l' acc' body
  end.

(** [for (size_t i = 0; i < v.size(); ++i)] with [v[i]] at hand. *)
Definition indexed {A} (v : list A) : list (nat * A) := imap pair v.

(** ** Memo insertion *)

Definition Memo_InsertExpression (gexpr : GExprPtr) (target_group : GroupID)
  : M bool :=
  s ← get_state;
  let '(s', is_new) := InsertExpression s gexpr target_group in
  put_state s';;
  ret is_new.

Definition new_GroupExpression (op : Operator) (child_groups : list GroupID)
  : GroupExpression :=
  {| Op := op;
     GetChildGroupIDs := child_groups;
     GetGroupID := UNDEFINED_GROUP;
     cost_table := CostTable_empty |}.

(** [MemoTransformedExpression], with [MakeGroupExpression] and
    [MemoTransformedChildren] unfolded into it: the three call each other
    along the children of the operator tree. *)
Fixpoint MemoTransformedExpression (expr : OpExpression) : M GroupID :=
  match expr with
  | OpExpr op children =>
      child_groups ←
        (fix MemoChildren (cs : list OpExpression) (child_groups : list GroupID)
           : M (list GroupID) :=
           match cs with
           | [] => ret child_groups
           | child :: cs' =>
               g ← MemoTransformedExpression child;
               MemoChildren cs' (child_groups ++ [g])
           end) children [];
      gexpr ← make_shared (new_GroupExpression op child_groups);
      Memo_InsertExpression gexpr UNDEFINED_GROUP;;
      e ← deref gexpr;
      ret (GetGroupID e)
  end.

Definition MemoTransformedChildren (expr : OpExpression) : M (list GroupID) :=
  for_fold (OpExpression_Children expr) []
    (λ child_groups child,
       g ← MemoTransformedExpression child;
       ret (child_groups ++ [g])).

Definition MakeGroupExpression (expr : OpExpression) : M GExprPtr :=
  child_groups ← MemoTransformedChildren expr;
  make_shared (new_GroupExpression (OpExpression_Op expr) child_groups).

(** [RecordTransformedExpression(expr, gexpr, target_group)]: the
    reference parameter [gexpr] is returned with the result. *)
Definition RecordTransformedExpression (expr : OpExpression)
    (target_group : GroupID) : M (GExprPtr * bool) :=
  pre ← get_state;
  gexpr ← MakeGroupExpression expr;
  handed ← get_state;
  is_new ← Memo_InsertExpression gexpr target_group;
  emit (EvRecord pre expr target_group handed gexpr is_new);;
  ret (gexpr, is_new).

(** The two-argument overload. *)
Definition RecordTransformedExpression_undefined (expr : OpExpression)
  : M (GExprPtr * bool) :=
  RecordTransformedExpression expr UNDEFINED_GROUP.

(** ** Rule application *)

Definition TransformExpression (gexpr : GExprPtr) (rule : Rule)
  : M (list GExprPtr) :=
  emit (EvTransformExpression gexpr rule);;
  let pattern := GetMatchPattern rule in
  s ← get_state;
  let iterator := ItemBindings s gexpr pattern in
  for_fold iterator []
    (λ output_plans plan,
       if Check rule plan then
         let transformed_plans := Transform rule plan in
         for_fold transformed_plans output_plans
           (λ output_plans plan,
              e ← deref gexpr;
              '(new_gexpr, new_expression) ←
                RecordTransformedExpression plan (GetGroupID e);
              if new_expression : bool
              then ret (output_plans ++ [new_gexpr])
              else ret output_plans)
       else ret output_plans).

(** ** Exploration

    [ExploreGroup] and [ExploreExpression] call each other; each is
    written over the calls it makes, and the knot is tied on the fuel. *)

Definition ExploreGroup_body (ExploreExpression : GExprPtr → M unit)
    (id : GroupID) : M unit :=
  group ← GetGroupByID id;
  for_each (GetExpressions group) ExploreExpression;;
  update_group id Group_SetExplorationFlag.

Definition ExploreExpression_body (ExploreExpression : GExprPtr → M unit)
    (ExploreGroup : GroupID → M unit) (gexpr : GExprPtr) : M unit :=
  e ← deref gexpr;
  PL_ASSERT (IsLogical (Op e));;
  for_each logical_transformation_rules_
    (λ rule,
       candidates ← TransformExpression gexpr rule;
       for_each candidates ExploreExpression);;
  e ← deref gexpr;
  for_each (GetChildGroupIDs e)
    (λ child_id,
       child ← GetGroupByID child_id;
       if negb (HasExplored child) then ExploreGroup child_id else ret tt).

Fixpoint ExploreExpression (fuel : nat) (gexpr : GExprPtr) : M unit :=
  match fuel with
  | O => fail OutOfFuel
  | S fuel' =>
      ExploreExpression_body (ExploreExpression fuel')
        (ExploreGroup_body (ExploreExpression fuel')) gexpr
  end.

Definition ExploreGroup (fuel : nat) (id : GroupID) : M unit :=
  ExploreGroup_body (ExploreExpression fuel) id.

(** ** Implementation *)

Definition ImplementGroup (fuel : nat) (id : GroupID) : M unit :=
  group ← GetGroupByID id;
  for_each (GetExpressions group)
    (λ gexpr,
       e ← deref gexpr;
       if IsPhysical (Op e) then ExploreExpression fuel gexpr else ret tt);;
  update_group id Group_SetImplementationFlag.

(** [ImplementExpression] has no caller in the file. *)
Definition ImplementExpression (fuel : nat) (gexpr : GExprPtr) : M unit :=
  for_each physical_implementation_rules_
    (λ rule, TransformExpression gexpr rule;; ret tt);;
  e ← deref gexpr;
  for_each (GetChildGroupIDs e)
    (λ child_id,
       child ← GetGroupByID child_id;
       if negb (HasImplemented child) then ImplementGroup fuel child_id
       else ret tt).

(** ** Costing *)

(** [DeriveChildProperties] as the file has it: both arguments unused,
    an empty vector returned. *)
Definition DeriveChildProperties (gexpr : GroupExpression)
    (requirements : PropertySet)
  : list (PropertySet * list PropertySet) := [].

(** [gexpr->DeriveStatsAndCost(...)] writes the tables of the shared
    object. *)
Definition DeriveStatsAndCost (gexpr : GExprPtr)
    (output_properties : PropertySet)
    (input_properties_list : list PropertySet)
    (child_stats : list Stats) (child_costs : list Cost) : M unit :=
  e ← deref gexpr;
  s ← get_state;
  put_state
    {| groups := groups s;
       gexprs :=
         <[gexpr := {| Op := Op e;
                       GetChildGroupIDs := GetChildGroupIDs e;
                       GetGroupID := GetGroupID e;
                       cost_table :=
                         CostTable_Derive (Op e) (cost_table e)
                           output_properties input_properties_list
                           child_stats child_costs |}]> (gexprs s);
       column_manager := column_manager s |};;
  emit (EvDeriveStatsAndCost gexpr output_properties input_properties_list).

(** [group->SetExpressionCost(gexpr, cost, requirements)] on the group
    with the given id. *)
Definition SetExpressionCost (id : GroupID) (gexpr : GExprPtr) (cost : Cost)
    (requirements : PropertySet) : M unit :=
  pre ← get_state;
  update_group id (λ g, Group_SetExpressionCost g gexpr cost requirements);;
  emit (EvSetExpressionCost pre id gexpr cost requirements).

Section Costing.
(** The body of [OptimizeExpression] is kept apart from the property
    derivation it calls, so that its loop can be studied for any
    derivation and then for the one the file has. *)
Variable derive :
  GroupExpression → PropertySet → list (PropertySet * list PropertySet).

Definition OptimizeGroup_body
    (OptimizeExpression : GExprPtr → PropertySet → M unit)
    (id : GroupID) (requirements : PropertySet) : M unit :=
  group ← GetGroupByID id;
  match GetBestExpression group requirements with
  | Some _ => ret tt
  | None =>
      let exprs := GetExpressions group in
      for_each exprs
        (λ gexpr,
           e ← deref gexpr;
           if IsPhysical (Op e) then OptimizeExpression gexpr requirements
           else ret tt)
  end.

Definition OptimizeExpression_body
    (OptimizeGroup : GroupID → PropertySet → M unit)
    (gexpr : GExprPtr) (requirements : PropertySet) : M unit :=
  e ← deref gexpr;
  PL_ASSERT (IsPhysical (Op e));;
  let output_input_property_pairs := derive e requirements in
  let child_group_ids := GetChildGroupIDs e in
  for_each output_input_property_pairs
    (λ '(output_properties, input_properties_list),
       '(best_child_stats, best_child_costs) ←
         for_fold (indexed child_group_ids) ([], [])
           (λ '(best_child_stats, best_child_costs) '(i, child_group_id),
              input_properties ← at_index input_properties_list i;
              OptimizeGroup child_group_id input_properties;;
              child ← GetGroupByID child_group_id;
              let best_expression := GetBestExpression child input_properties in
              PL_ASSERT (bool_decide (is_Some best_expression));;
              best ← deref_shared best_expression;
              ret (best_child_stats ++
                     [CostTable_GetStats (cost_table best) input_properties],
                   best_child_costs ++
                     [CostTable_GetCost (cost_table best) input_properties]));
       DeriveStatsAndCost gexpr output_properties input_properties_list
         best_child_stats best_child_costs;;
       if PropertySet_ge output_properties requirements then
         e ← deref gexpr;
         SetExpressionCost (GetGroupID e) gexpr
           (CostTable_GetCost (cost_table e) output_properties) requirements
       else ret tt).

Fixpoint OptimizeExpressionWith (fuel : nat) (gexpr : GExprPtr)
    (requirements : PropertySet) : M unit :=
  match fuel with
  | O => fail OutOfFuel
  | S fuel' =>
      OptimizeExpression_body
        (OptimizeGroup_body (OptimizeExpressionWith fuel'))
        gexpr requirements
  end.

Definition OptimizeGroupWith (fuel : nat) (id : GroupID)
    (requirements : PropertySet) : M unit :=
  OptimizeGroup_body (OptimizeExpressionWith fuel) id requirements.

End Costing.

Definition OptimizeExpression : nat → GExprPtr → PropertySet → M unit :=
  OptimizeExpressionWith DeriveChildProperties.

Definition OptimizeGroup : nat → GroupID → PropertySet → M unit :=
  OptimizeGroupWith DeriveChildProperties.

(** ** Extraction *)

(** The requirement list used for the children: the operator's own list,
    or default property sets when the operator gives none. *)
Definition required_input_props_of (e : GroupExpression) : list PropertySet :=
  let required_input_props := RequiredInputProperties (Op e) in
  if bool_decide (required_input_props = [])
  then replicate (length (GetChildGroupIDs e)) PropertySet_default
  else required_input_props.

Fixpoint ChooseBestPlan (fuel : nat) (id : GroupID)
    (requirements : PropertySet) : M OpExpression :=
  match fuel with
  | O => fail OutOfFuel
  | S fuel' =>
      group ← GetGroupByID id;
      gexpr ← deref_shared (GetBestExpression group requirements);
      let child_groups := GetChildGroupIDs gexpr in
      let required_input_props := required_input_props_of gexpr in
      let op := OpExpr (Op gexpr) [] in
      for_fold (indexed child_groups) op
        (λ op '(i, child_group),
           requirement ← at_index required_input_props i;
           child_op ← ChooseBestPlan fuel' child_group requirement;
           ret (PushChild op child_op))
  end.

(** ** The driver *)

Definition InsertQueryTree (tree : SQLStatement) : M GExprPtr :=
  s ← get_state;
  let '(initial, cm) := ConvertQueryToOpExpression (column_manager s) tree in
  put_state {| groups := groups s; gexprs := gexprs s; column_manager := cm |};;
  '(gexpr, is_new) ← RecordTransformedExpression_undefined initial;
  PL_ASSERT is_new;;
  ret gexpr.

Definition GetQueryTreeRequiredProperties (tree : SQLStatement)
  : M PropertySet :=
  s ← get_state;
  let '(properties, cm) := GetProperties (column_manager s) tree in
  put_state {| groups := groups s; gexprs := gexprs s; column_manager := cm |};;
  ret properties.

Definition OptimizerPlanToPlannerPlan (plan : OpExpression) : AbstractPlan :=
  ConvertOpExpressionToPlan plan.

(** [BuildPelotonPlanTree]: [None] is the null plan.  [ChooseBestPlan]
    returns the result of [make_shared], which is never null, so the
    test of [best_plan] against [nullptr] has no branch here. *)
Definition BuildPelotonPlanTree (fuel : nat)
    (parse_tree_list : list SQLStatement) : M (option AbstractPlan) :=
  match parse_tree_list with
  | [] => ret None
  | parse_tree :: _ =>
      gexpr ← InsertQueryTree parse_tree;
      e ← deref gexpr;
      let root_id := GetGroupID e in
      properties ← GetQueryTreeRequiredProperties parse_tree;
      ExploreGroup fuel root_id;;
      ImplementGroup fuel root_id;;
      OptimizeExpression fuel gexpr properties;;
      best_plan ← ChooseBestPlan fuel root_id properties;
      ret (Some (OptimizerPlanToPlannerPlan best_plan))
  end.

End Optimizer.

(** * Vocabulary of the properties *)
Section Vocabulary.
Context `{Components}.

(** The world [update_group] leaves behind. *)
Definition with_group (w : World) (id : GroupID) (g : Group) : World :=
  {| st := {| groups := <[id := g]> (groups (st w));
              gexprs := gexprs (st w);
              column_manager := column_manager (st w) |};
     log := log w |}.

(** ** Failures

    Which failures a call can end with.  Every failure of the driver
    comes from the code itself: none of its functions produces [NoPlan]
    or [Cancelled]. *)
Definition raised_by_code (f : Failure) : Prop :=
  match f with
  | NoPlan | Cancelled => False
  | _ => True
  end.

Definition fails_only {A} (m : M A) : Prop :=
  ∀ w f, m w = Err f → raised_by_code f.

(** The log after a step is the log before it. *)
Definition same_log (w w' : World) : Prop := log w' = log w.

(** ** Rule application *)

(** One call of [RecordTransformedExpression]: the state it was made in,
    the operator tree and target group it was given, the state in which
    the memo was handed the group expression made, that group expression
    and the answer returned. *)
Record RecordCall := {
  call_pre : State;
  call_expr : OpExpression;
  call_target : GroupID;
  call_handed : State;
  call_gexpr : GExprPtr;
  call_is_new : bool;
}.

Definition record_event (c : RecordCall) : Event :=
  EvRecord (call_pre c) (call_expr c) (call_target c) (call_handed c)
    (call_gexpr c) (call_is_new c).

(** The operator trees a rule yields on a sequence of bindings: those of
    [Transform] on each binding that passes [Check], in order. *)
Definition transformed_plans (rule : Rule) (bindings : list OpExpression)
  : list OpExpression :=
  concat ((λ plan, if Check rule plan then Transform rule plan else [])
            <$> bindings).

(** The group expressions of the calls that the memo reported as new. *)
Definition new_expressions (calls : list RecordCall) : list GExprPtr :=
  call_gexpr <$> filter (λ c, call_is_new c = true) calls.

(** The target of a call is the group of [gexpr] at the time of the
    call, and the answer of the call is that of the memo's
    [InsertExpression] for this target. *)
Definition targets_group_of (gexpr : GExprPtr) (c : RecordCall) : Prop :=
  (∃ e, gexprs (call_pre c) !! gexpr = Some e ∧ call_target c = GetGroupID e)
  ∧ snd (InsertExpression (call_handed c) (call_gexpr c) (call_target c))
    = call_is_new c.

(** The world a sequence of calls leaves when made one after the other
    from [w]: each call is made in the state the one before it left,
    builds its group expression with [MakeGroupExpression], hands it to
    the memo's [InsertExpression] for its target group and writes its
    record; the state the memo returns is the state the call leaves. *)
Fixpoint records_into_memo (w : World) (calls : list RecordCall)
    (w' : World) : Prop :=
  match calls with
  | [] => w' = w
  | c :: rest =>
      call_pre c = st w
      ∧ ∃ handed : World,
          MakeGroupExpression (call_expr c) w = Ok (call_gexpr c, handed)
          ∧ call_handed c = st handed
          ∧ records_into_memo
              {| st := fst (InsertExpression (st handed) (call_gexpr c)
                              (call_target c));
                 log := log handed ++ [record_event c] |} rest w'
  end.

(** ** Costing *)

(** The binding [best[requirements]] of group [id], if any. *)
Definition best_binding (w : World) (id : GroupID)
    (requirements : PropertySet) : option (Cost * GExprPtr) :=
  match groups (st w) !! id with
  | Some g => lowest_cost_expressions g !! requirements
  | None => None
  end.

(** A binding either stays, or is replaced by one of strictly lower cost
    (any cost, where there was none). *)
Definition improves (old new : option (Cost * GExprPtr)) : Prop :=
  new = old
  ∨ ∃ cost gexpr, new = Some (cost, gexpr)
      ∧ match old with
        | Some (incumbent, _) => Cost_lt cost incumbent = true
        | None => True
        end.

Section Derivation.
Variable derive :
  GroupExpression → PropertySet → list (PropertySet * list PropertySet).

(** A registration [SetExpressionCost(gexpr, cost, requirements)] on
    group [id] is backed by a derived pair whose output properties
    subsume the requirements and whose cost is the one registered. *)
Definition registered_under (ev : Event) : Prop :=
  match ev with
  | EvSetExpressionCost pre id gexpr cost requirements =>
      ∃ e e0 output_properties input_properties_list,
        gexprs pre !! gexpr = Some e
        ∧ id = GetGroupID e
        ∧ (output_properties, input_properties_list) ∈ derive e0 requirements
        ∧ PropertySet_ge output_properties requirements = true
        ∧ cost = CostTable_GetCost (cost_table e) output_properties
  | _ => True
  end.

Definition costing_step (w w' : World) : Prop :=
  ∃ evs,
    log w' = log w ++ evs
    ∧ Forall registered_under evs
    ∧ (∀ id requirements,
         improves (best_binding w id requirements)
                  (best_binding w' id requirements))
    ∧ (∀ id requirements,
         best_binding w' id requirements = best_binding w id requirements
         ∨ ∃ pre cost gexpr,
             best_binding w' id requirements = Some (cost, gexpr)
             ∧ EvSetExpressionCost pre id gexpr cost requirements ∈ evs).

End Derivation.

(** ** Extraction *)

(** Extraction as the spec words it: each child group is extracted under
    its requirement, and the plan is the operator over the children's
    plans. *)
Fixpoint extract_each (choose : GroupID → PropertySet → M OpExpression)
    (children : list (GroupID * PropertySet)) : M (list OpExpression) :=
  match children with
  | [] => mret []
  | (child_group, requirement) :: rest =>
      child_op ← choose child_group requirement;
      child_ops ← extract_each choose rest;
      mret (child_op :: child_ops)
  end.

Definition extract_under (choose : GroupID → PropertySet → M OpExpression)
    (e : GroupExpression) (requirements : list PropertySet) : M OpExpression :=
  child_ops ← extract_each choose (zip (GetChildGroupIDs e) requirements);
  mret (OpExpr (Op e) child_ops).

(** ** Cancellation

    The spec's cancellable entry point is a computation that is given the
    token.  The member functions of the driver have no token parameter
    and read no flag, so a call is the same computation whatever the
    token holds. *)
Definition with_token {A} (m : M A) (token_tripped : bool)
  : M A := m.

Definition answers_Cancelled {A} (entry : bool → M A)
    (w : World) : Prop :=
  entry true w = Err Cancelled.

End Vocabulary.

(** ** Vocabulary of the further properties *)
Section DriverVocabulary.
Context `{Components}.

(** What exploration may write to the log: applications of
    logical-transformation rules and the records they make. *)
Definition exploration_event (ev : Event) : Prop :=
  match ev with
  | EvTransformExpression _ rule => rule ∈ logical_transformation_rules_
  | EvRecord _ _ _ _ _ _ => True
  | EvDeriveStatsAndCost _ _ _ => False
  | EvSetExpressionCost _ _ _ _ _ => False
  end.

(** The rule applications of a stretch of the log, in order. *)
Definition applied_rules (evs : list Event) : list (GExprPtr * Rule) :=
  omap (λ ev, match ev with
              | EvTransformExpression gexpr rule => Some (gexpr, rule)
              | _ => None
              end) evs.

(** The log grows by events that all satisfy [P]. *)
Definition logs_only (P : Event → Prop) (w w' : World) : Prop :=
  ∃ evs, log w' = log w ++ evs ∧ Forall P evs.

(** No group has a best expression for any requirement. *)
Definition no_bindings (s : State) : Prop :=
  ∀ id g, groups s !! id = Some g → lowest_cost_expressions g = ∅.

(** The number of operator nodes of a tree. *)
Fixpoint node_count (expr : OpExpression) : nat :=
  match expr with
  | OpExpr _ children => S (sum_list (map node_count children))
  end.

(** A step keeps a property of the state. *)
Definition preserves (I : State → Prop) (w w' : World) : Prop :=
  I (st w) → I (st w').

(** ** Logical expressions *)

(** Every operator of the tree is logical, and none is physical. *)
Fixpoint all_logical (expr : OpExpression) : bool :=
  match expr with
  | OpExpr op children =>
      IsLogical op && negb (IsPhysical op) && forallb all_logical children
  end.

(** Every group expression of the store has a logical operator, and none
    a physical one. *)
Definition logical_memo (s : State) : Prop :=
  ∀ gexpr e, gexprs s !! gexpr = Some e →
    IsLogical (Op e) = true ∧ IsPhysical (Op e) = false.

(** Started on a logical memo, the computation fails no assertion, and
    when it returns it leaves a logical memo and a result that satisfies
    [P]. *)
Definition asserts_hold {A} (P : A → Prop) (m : M A) : Prop :=
  ∀ w, logical_memo (st w) →
    m w ≠ Err AssertionFailed
    ∧ ∀ a w', m w = Ok (a, w') → logical_memo (st w') ∧ P a.

End DriverVocabulary.

(** * The helpers of the bloom filter test

    The test fixture that follows the optimizer in the file:
    [BloomFilterCodegenTest::UpDivide] and the column list that
    [BloomFilterCodegenTest::CreateTable] builds for the catalog. *)
Module BloomFilterCodegenTest.

Definition INT_MIN : Z := - 2 ^ 31.
Definition INT_MAX : Z := 2 ^ 31 - 1.

Definition in_int (z : Z) : bool := (INT_MIN <=? z) && (z <=? INT_MAX).

(** [int] arithmetic: a result outside the range of [int] and a division
    by zero are undefined, [None] here.  Division truncates. *)
Definition int_add (a b : Z) : option Z :=
  if in_int (a + b) then Some (a + b) else None.

Definition int_sub (a b : Z) : option Z :=
  if in_int (a - b) then Some (a - b) else None.

Definition int_div (a b : Z) : option Z :=
  if b =? 0 then None
  else if in_int (Z.quot a b) then Some (Z.quot a b) else None.

(** [return (num1 + num2 - 1) / num2;] *)
Definition UpDivide (num1 num2 : Z) : option Z :=
  s ← int_add num1 num2;
  t ← int_sub s 1;
  int_div t num2.

Inductive TypeId := INTEGER | BIGINT.

(** [catalog::Column{type, length, name, is_inlined}]. *)
Record Column := {
  column_type : TypeId;
  column_length : Z;
  column_name : string;
  is_inlined : bool;
}.

(** Conversions between [int] and [size_t] (64 bits). *)
Definition to_size_t (z : Z) : Z := z mod 2 ^ 64.
Definition to_int (z : Z) : Z := (z + 2 ^ 31) mod 2 ^ 32 - 2 ^ 31.

(** The loop of [CreateTable]: [curr_size] is an [int], [bigint_size] a
    [size_t], so the quotient and the sum are computed in [size_t] and
    the sum is converted back to [int].  [bigint_size] is the result of
    [type::Type::GetTypeSize(BIGINT)]. *)
Fixpoint CreateTable_loop (fuel : nat) (bigint_size tuple_size : Z)
    (curr_size : Z) (cols : list Column) : option (list Column) :=
  match fuel with
  | O => None
  | S fuel' =>
      if curr_size <? tuple_size then
        if bigint_size =? 0 then None
        else
          let col :=
            {| column_type := BIGINT;
               column_length := bigint_size;
               column_name :=
                 "c" +:+ pretty (Z.to_N (to_size_t curr_size / bigint_size));
               is_inlined := true |} in
          CreateTable_loop fuel' bigint_size tuple_size
            (to_int (to_size_t (to_size_t curr_size + bigint_size)))
            (cols ++ [col])
      else Some cols
  end.

(** The columns of the schema that [CreateTable] hands to the catalog. *)
Definition CreateTable (fuel : nat) (bigint_size tuple_size : Z)
  : option (list Column) :=
  CreateTable_loop fuel bigint_size tuple_size 0 [].

(** Column [i] of such a schema. *)
Definition bigint_column (bigint_size : Z) (i : nat) : Column :=
  {| column_type := BIGINT;
     column_length := bigint_size;
     column_name := "c" +:+ pretty (N.of_nat i);
     is_inlined := true |}.

End BloomFilterCodegenTest.

(** ** A small catalogue to run the driver on

    Operators named after the rules the constructor registers
    ([GetToScan], [InnerJoinCommutativity], [InnerJoinToInnerNLJoin]),
    property sets as sorted lists of column numbers, integer costs. *)
Module Scenario.

Inductive op :=
| Leaf (origin_group : GroupID)
| LogicalGet (table : nat)
| LogicalInnerJoin
| PhysicalScan (table : nat)
| PhysicalInnerNLJoin
| PhysicalSortedJoin.

Global Instance op_eq_dec : EqDecision op.
Proof. solve_decision. Defined.

(** A leaf is an operator below the physical ones, like the logical
    operators. *)
Definition op_IsLogical (o : op) : bool :=
  match o with Leaf _ | LogicalGet _ | LogicalInnerJoin => true | _ => false end.

Definition op_IsPhysical (o : op) : bool :=
  match o with
  | PhysicalScan _ | PhysicalInnerNLJoin | PhysicalSortedJoin => true
  | _ => false
  end.

Definition props := list nat.

Definition props_ge (a b : props) : bool :=
  forallb (λ x, bool_decide (x ∈ a)) b.

(** The sorted join wants both inputs sorted on column 7; the other
    operators give no list. *)
Definition op_RequiredInputProperties (o : op) : list props :=
  match o with
  | PhysicalSortedJoin => [[7%nat]; [7%nat]]
  | _ => []
  end.

#[warnings="-register-all"]
Inductive plan :=
| Plan (o : op) (children : list plan).

(** Statements: a scan of one table, or the join of two tables. *)
Inductive stmt :=
| Select (table : nat)
| SelectJoin (left right : nat).

(** The cost table of an expression: the cost derived for each output
    property set, newest first; an absent entry reads as cost 0. *)
Definition table := list (props * Z).

Definition table_cost (t : table) (p : props) : Z :=
  match list_find (λ entry, fst entry = p) t with
  | Some (_, (_, c)) => c
  | None => 0
  end.

Definition table_derive (o : op) (t : table) (out : props)
    (ins : list props) (child_stats : list unit) (child_costs : list Z)
  : table :=
  (out, 1 + foldr Z.add 0 child_costs + Z.of_nat (length out)) :: t.

Global Instance collaborators : Collaborators := {|
  Operator := op;
  PropertySet := props;
  IsLogical := op_IsLogical;
  IsPhysical := op_IsPhysical;
  RequiredInputProperties := op_RequiredInputProperties;
  PropertySet_default := [];
  PropertySet_ge := props_ge;
  Cost := Z;
  Cost_lt := Z.ltb;
  Stats := unit;
  CostTable := table;
  CostTable_empty := [];
  CostTable_GetCost := table_cost;
  CostTable_GetStats := λ _ _, tt;
  CostTable_Derive := table_derive;
  Pattern := op → bool;
  SQLStatement := stmt;
  AbstractPlan := plan;
  ColumnManager := unit;
|}.

Definition UNDEF : GroupID := -1.

Definition set_group_id (s : State) (p : GExprPtr) (g : GroupID) : State :=
  match gexprs s !! p with
  | Some e =>
      {| groups := groups s;
         gexprs := <[p := {| Op := Op e;
                             GetChildGroupIDs := GetChildGroupIDs e;
                             GetGroupID := g;
                             cost_table := cost_table e |}]> (gexprs s);
         column_manager := column_manager s |}
  | None => s
  end.

Definition empty_group : Group :=
  {| GetExpressions := [];
     HasExplored := false;
     HasImplemented := false;
     lowest_cost_expressions := ∅ |}.

Definition add_expression (g : Group) (p : GExprPtr) : Group :=
  {| GetExpressions := GetExpressions g ++ [p];
     HasExplored := HasExplored g;
     HasImplemented := HasImplemented g;
     lowest_cost_expressions := lowest_cost_expressions g |}.

(** Modelled from the spec: [Memo::InsertExpression] (section 4.1),
    without the merging of groups, which the spec's open questions say
    the source does not implement.  An expression equal to a stored one
    joins that one's group and is not new; otherwise it goes to the
    target group, or to a fresh group when the target is undefined.  A
    [Leaf] stands for the group it came from. *)
Definition simple_insert (s : State) (p : GExprPtr) (target : GroupID)
  : State * bool :=
  match gexprs s !! p with
  | None => (s, false)
  | Some e =>
      match Op e with
      | Leaf g => (set_group_id s p g, false)
      | _ =>
          match list_find
                  (λ e', Op e' = Op e
                         ∧ GetChildGroupIDs e' = GetChildGroupIDs e
                         ∧ GetGroupID e' ≠ UNDEF) (gexprs s) with
          | Some (_, e') => (set_group_id s p (GetGroupID e'), false)
          | None =>
              let g := if bool_decide (target = UNDEF)
                       then Z.of_nat (size (groups s)) else target in
              let grp := default empty_group (groups s !! g) in
              (set_group_id
                 {| groups := <[g := add_expression grp p]> (groups s);
                    gexprs := gexprs s;
                    column_manager := column_manager s |} p g,
               true)
          end
      end
  end.

(** A pattern tests the root operator; the children are bound to leaves
    standing for their groups. *)
Definition bindings (s : State) (p : GExprPtr) (pattern : op → bool)
  : list OpExpression :=
  match gexprs s !! p with
  | Some e =>
      if pattern (Op e)
      then [OpExpr (Op e) (map (λ g, OpExpr (Leaf g) []) (GetChildGroupIDs e))]
      else []
  | None => []
  end.

Definition is_get (o : op) : bool :=
  match o with LogicalGet _ => true | _ => false end.

Definition is_inner_join (o : op) : bool :=
  match o with LogicalInnerJoin => true | _ => false end.

Definition GetToScan : Rule :=
  {| GetMatchPattern := is_get : Pattern;
     Check := λ _, true;
     Transform := λ plan,
       match plan with
       | OpExpr (LogicalGet t) cs => [OpExpr (PhysicalScan t) cs]
       | _ => []
       end |}.

Definition InnerJoinCommutativity : Rule :=
  {| GetMatchPattern := is_inner_join : Pattern;
     Check := λ _, true;
     Transform := λ plan,
       match plan with
       | OpExpr LogicalInnerJoin [a; b] => [OpExpr LogicalInnerJoin [b; a]]
       | _ => []
       end |}.

Definition InnerJoinToInnerNLJoin : Rule :=
  {| GetMatchPattern := is_inner_join : Pattern;
     Check := λ _, true;
     Transform := λ plan,
       match plan with
       | OpExpr LogicalInnerJoin cs => [OpExpr PhysicalInnerNLJoin cs]
       | _ => []
       end |}.

Definition convert_query (cm : unit) (tree : stmt) : OpExpression * unit :=
  match tree with
  | Select t => (OpExpr (LogicalGet t) [], cm)
  | SelectJoin a b =>
      (OpExpr LogicalInnerJoin
         [OpExpr (LogicalGet a) []; OpExpr (LogicalGet b) []], cm)
  end.

Fixpoint convert_plan (e : OpExpression) : plan :=
  match e with
  | OpExpr o cs => Plan o (map convert_plan cs)
  end.

Global Instance components : Components := {|
  UNDEFINED_GROUP := UNDEF;
  InsertExpression := simple_insert;
  ItemBindings := bindings;
  logical_transformation_rules_ := [InnerJoinCommutativity];
  physical_implementation_rules_ := [GetToScan; InnerJoinToInnerNLJoin];
  ConvertQueryToOpExpression := convert_query;
  GetProperties := λ cm _, ([], cm);
  ConvertOpExpressionToPlan := convert_plan;
|}.

Definition empty_state : State :=
  {| groups := ∅; gexprs := []; column_manager := tt |}.

Definition fresh : World := {| st := empty_state; log := [] |}.

Definition no_requirements : PropertySet := [].

Definition sorted_on (column : nat) : PropertySet := [column].

Definition expression (o : Operator) (child_groups : list GroupID)
    (g : GroupID) (t : CostTable) : GroupExpression :=
  {| Op := o; GetChildGroupIDs := child_groups; GetGroupID := g;
     cost_table := t |}.

(** The world after a computation, started from [w]. *)
Definition after {A} (m : M A) (w : World) : World :=
  match m w with
  | Ok (_, w') => w'
  | Err _ => w
  end.

(** One table scanned: group 0 holds the logical [LogicalGet 1]. *)
Definition scan_world : World := after (InsertQueryTree (Select 1)) fresh.

Definition scan_group : Group :=
  {| GetExpressions := [0%nat];
     HasExplored := false;
     HasImplemented := false;
     lowest_cost_expressions := ∅ |}.

(** The same query with the physical scan that [GetToScan] derives
    recorded next to it: group 0 holds [LogicalGet 1] and
    [PhysicalScan 1]. *)
Definition implemented_world : World :=
  after (ImplementExpression 1 0%nat) scan_world.

(** A derivation of property pairs to run the costing loop on: the
    sorted join delivers its output sorted on column 7 and wants both
    inputs sorted on it; a scan delivers what is asked of it. *)
Definition modes (e : GroupExpression) (requirements : PropertySet)
  : list (PropertySet * list PropertySet) :=
  match Op e with
  | PhysicalSortedJoin => [(sorted_on 7, [sorted_on 7; sorted_on 7])]
  | PhysicalScan _ => [(requirements, [])]
  | _ => []
  end.

(** A physical join of two scans, recorded as it is: groups 0 and 1 hold
    the scans, group 2 the join; then costed with [modes] under no
    requirement. *)
Definition join_world : World :=
  after (RecordTransformedExpression
           (OpExpr PhysicalSortedJoin
              [OpExpr (PhysicalScan 1) []; OpExpr (PhysicalScan 2) []])
           UNDEF) fresh.

Definition optimized_world : World :=
  after (OptimizeExpressionWith modes 3 2%nat no_requirements) join_world.

(** The same, with the two scans also costed under no requirement. *)
Definition extractable_world : World :=
  after (OptimizeGroupWith modes 3 0 no_requirements;;
         OptimizeGroupWith modes 3 1 no_requirements) optimized_world.

(** The same with a nested-loop join, which wants nothing of its inputs:
    recorded as it is, then costed under no requirement. *)
Definition loop_modes (e : GroupExpression) (requirements : PropertySet)
  : list (PropertySet * list PropertySet) :=
  match Op e with
  | PhysicalInnerNLJoin =>
      [(requirements, [no_requirements; no_requirements])]
  | PhysicalScan _ => [(requirements, [])]
  | _ => []
  end.

Definition loop_join_plan : OpExpression :=
  OpExpr PhysicalInnerNLJoin
    [OpExpr (PhysicalScan 1) []; OpExpr (PhysicalScan 2) []].

Definition loop_join_world : World :=
  after (OptimizeExpressionWith loop_modes 3 2%nat no_requirements)
    (after (RecordTransformedExpression loop_join_plan UNDEF) fresh).

Definition loop_join : Operator := PhysicalInnerNLJoin.

Definition join_group : Group :=
  {| GetExpressions := [2%nat];
     HasExplored := false;
     HasImplemented := false;
     lowest_cost_expressions := {[ no_requirements := (6, 2%nat) ]} |}.

Definition join_expression : GroupExpression :=
  expression PhysicalSortedJoin [0; 1] 2 [(sorted_on 7, 6)].

(** The plan extracted for the join, and a logical join to ingest. *)
Definition join_plan : OpExpression :=
  OpExpr PhysicalSortedJoin
    [OpExpr (PhysicalScan 1) []; OpExpr (PhysicalScan 2) []].

Definition logical_join : OpExpression :=
  OpExpr LogicalInnerJoin
    [OpExpr (LogicalGet 1) []; OpExpr (LogicalGet 2) []].

Definition one_table : SQLStatement := Select 1.

Definition two_tables : SQLStatement := SelectJoin 1 2.

Definition join_query_world : World :=
  after (InsertQueryTree (SelectJoin 1 2)) fresh.

Definition implemented_group : Group :=
  {| GetExpressions := [0%nat; 1%nat];
     HasExplored := false;
     HasImplemented := false;
     lowest_cost_expressions := ∅ |}.

End Scenario.

(** * Properties *)

Section Kit.
Context `{Components}.

Lemma bind_unfold {A B} (m : M A) (k : A → M B) (w : World) :
  (m ≫= k) w = match m w with
               | Ok (a, w') => k a w'
               | Err f => Err f
               end.
Proof. reflexivity. Qed.

Lemma bind_Ok {A B} (m : M A) (k : A → M B) w b w'' :
  (m ≫= k) w = Ok (b, w'') ↔
  ∃ a w', m w = Ok (a, w') ∧ k a w' = Ok (b, w'').
Proof.
  rewrite bind_unfold. split.
  - destruct (m w) as [[a w']|f]; [eauto | discriminate].
  - intros (a & w' & -> & Hk). exact Hk.
Qed.

Lemma bind_Err_l {A B} (m : M A) (k : A → M B) w f :
  m w = Err f → (m ≫= k) w = Err f.
Proof. intros Hm. rewrite bind_unfold, Hm. reflexivity. Qed.

Lemma bind_Ok_l {A B} (m : M A) (k : A → M B) w a w' :
  m w = Ok (a, w') → (m ≫= k) w = k a w'.
Proof. intros Hm. rewrite bind_unfold, Hm. reflexivity. Qed.

Lemma deref_Some gexpr e w :
  gexprs (st w) !! gexpr = Some e → deref gexpr w = Ok (e, w).
Proof.
  intros He. unfold deref. rewrite bind_unfold. simpl.
  rewrite He. reflexivity.
Qed.

Lemma deref_Ok gexpr e w w' :
  deref gexpr w = Ok (e, w') → w' = w ∧ gexprs (st w) !! gexpr = Some e.
Proof.
  unfold deref. rewrite bind_unfold. simpl.
  destruct (gexprs (st w) !! gexpr); [|discriminate].
  intros [= -> ->]. auto.
Qed.

Lemma GetGroupByID_Some id g w :
  groups (st w) !! id = Some g → GetGroupByID id w = Ok (g, w).
Proof.
  intros Hg. unfold GetGroupByID. rewrite bind_unfold. simpl.
  rewrite Hg. reflexivity.
Qed.

Lemma GetGroupByID_Ok id g w w' :
  GetGroupByID id w = Ok (g, w') → w' = w ∧ groups (st w) !! id = Some g.
Proof.
  unfold GetGroupByID. rewrite bind_unfold. simpl.
  destruct (groups (st w) !! id); [|discriminate].
  intros [= -> ->]. auto.
Qed.

Lemma at_index_Some {A} (v : list A) i x :
  v !! i = Some x → at_index v i = mret x.
Proof. intros Hx. unfold at_index. rewrite Hx. reflexivity. Qed.

(** A loop whose every iteration leaves the world as it found it. *)
Lemma for_each_skip {A} (l : list A) (body : A → M unit) w :
  Forall (λ x, body x w = Ok (tt, w)) l → for_each l body w = Ok (tt, w).
Proof.
  induction 1 as [|x l Hx _ IH]; [reflexivity|].
  simpl. rewrite (bind_Ok_l _ _ _ _ _ Hx). exact IH.
Qed.

Lemma update_group_Some id f g w :
  groups (st w) !! id = Some g →
  update_group id f w = Ok (tt, with_group w id (f g)).
Proof.
  intros Hg. unfold update_group.
  rewrite (bind_Ok_l _ _ _ _ _ (GetGroupByID_Some _ _ _ Hg)).
  reflexivity.
Qed.

End Kit.

Section DriverProperties.
Context `{Components}.

(** C9.  With no statement in the list, [BuildPelotonPlanTree] returns
    the null plan at once: the memo, the store of expressions and the
    log of calls are what they were, so nothing was ingested, explored,
    implemented, costed or extracted. *)
Theorem BuildPelotonPlanTree_empty (fuel : nat) (w : World) :
  BuildPelotonPlanTree fuel [] w = Ok (None, w).
Proof. reflexivity. Qed.

(** C10.  On a non-empty statement list only the first statement is
    optimized: started in the same optimizer state, the outcome (plan or
    failure, and the state left behind) is the same whatever follows the
    first statement, and the same as for the first statement alone. *)
Theorem BuildPelotonPlanTree_first_only (fuel : nat)
    (parse_tree : SQLStatement) (rest rest' : list SQLStatement) (w : World) :
  BuildPelotonPlanTree fuel (parse_tree :: rest) w
    = BuildPelotonPlanTree fuel (parse_tree :: rest') w
  ∧ BuildPelotonPlanTree fuel (parse_tree :: rest) w
    = BuildPelotonPlanTree fuel [parse_tree] w.
Proof. split; reflexivity. Qed.

(** C2.  [DeriveChildProperties] returns no pair, and so
    [OptimizeExpression] on a physical expression returns having changed
    nothing: every group keeps the best-expression bindings it had and no
    cost was registered. *)
Theorem OptimizeExpression_registers_nothing (fuel : nat) (gexpr : GExprPtr)
    (requirements : PropertySet) (w : World) (e : GroupExpression) :
  gexprs (st w) !! gexpr = Some e →
  IsPhysical (Op e) = true →
  DeriveChildProperties e requirements = []
  ∧ OptimizeExpression (S fuel) gexpr requirements w = Ok (tt, w).
Proof.
  intros He Hphys. split; [reflexivity|].
  unfold OptimizeExpression. simpl. unfold OptimizeExpression_body.
  rewrite (bind_Ok_l _ _ _ _ _ (deref_Some _ _ _ He)).
  rewrite Hphys. reflexivity.
Qed.

(** C3.  Where the group has no best expression for the requirements,
    [ChooseBestPlan] dereferences the null pointer that
    [GetBestExpression] returned: the call ends in a null dereference,
    not in [NoPlan]. *)
Theorem ChooseBestPlan_null_dereference (fuel : nat) (id : GroupID)
    (requirements : PropertySet) (w : World) (g : Group) :
  groups (st w) !! id = Some g →
  GetBestExpression g requirements = None →
  ChooseBestPlan (S fuel) id requirements w = Err NullDereference
  ∧ ChooseBestPlan (S fuel) id requirements w ≠ Err NoPlan.
Proof.
  intros Hg Hbest.
  assert (ChooseBestPlan (S fuel) id requirements w = Err NullDereference)
    as Hrun.
  { simpl. rewrite (bind_Ok_l _ _ _ _ _ (GetGroupByID_Some _ _ _ Hg)).
    rewrite Hbest. reflexivity. }
  split; [exact Hrun|]. rewrite Hrun. discriminate.
Qed.

(** C1.  On a group that holds logical expressions only,
    [ImplementGroup] applies no rule at all: it calls neither
    [ImplementExpression] nor [TransformExpression], leaves the group's
    expressions and the log of calls as they were, and sets the
    implemented flag. *)
Theorem ImplementGroup_applies_no_rule (fuel : nat) (id : GroupID)
    (w : World) (g : Group) :
  groups (st w) !! id = Some g →
  Forall (λ gexpr, ∃ e, gexprs (st w) !! gexpr = Some e
                        ∧ IsPhysical (Op e) = false) (GetExpressions g) →
  ImplementGroup fuel id w
    = Ok (tt, with_group w id (Group_SetImplementationFlag g)).
Proof.
  intros Hg Hall. unfold ImplementGroup.
  rewrite (bind_Ok_l _ _ _ _ _ (GetGroupByID_Some _ _ _ Hg)).
  rewrite (bind_Ok_l _ _ w tt w).
  - apply update_group_Some, Hg.
  - apply for_each_skip. eapply Forall_impl; [exact Hall|].
    intros gexpr (e & He & Hphys). simpl.
    rewrite (bind_Ok_l _ _ _ _ _ (deref_Some _ _ _ He)).
    rewrite Hphys. reflexivity.
Qed.

(** Where a group does hold a physical expression, [ImplementGroup]
    hands it to [ExploreExpression], and the assertion that the operator
    is logical fails on the first such expression. *)
Theorem ImplementGroup_explores_physical (fuel : nat) (id : GroupID)
    (w : World) (g : Group) (skipped : list GExprPtr) (gexpr : GExprPtr)
    (rest : list GExprPtr) (e : GroupExpression) :
  groups (st w) !! id = Some g →
  GetExpressions g = skipped ++ gexpr :: rest →
  Forall (λ p, ∃ e', gexprs (st w) !! p = Some e'
                     ∧ IsPhysical (Op e') = false) skipped →
  gexprs (st w) !! gexpr = Some e →
  IsPhysical (Op e) = true →
  IsLogical (Op e) = false →
  ImplementGroup (S fuel) id w = Err AssertionFailed.
Proof.
  intros Hg Hexprs Hskip He Hphys Hlog. unfold ImplementGroup.
  rewrite (bind_Ok_l _ _ _ _ _ (GetGroupByID_Some _ _ _ Hg)).
  apply bind_Err_l. rewrite Hexprs. clear Hexprs Hg.
  induction Hskip as [|p skipped (e' & He' & Hphys') _ IH].
  - simpl. apply bind_Err_l.
    rewrite (bind_Ok_l _ _ _ _ _ (deref_Some _ _ _ He)).
    rewrite Hphys. unfold ExploreExpression_body.
    rewrite (bind_Ok_l _ _ _ _ _ (deref_Some _ _ _ He)).
    rewrite Hlog. reflexivity.
  - simpl. rewrite (bind_Ok_l _ _ w tt w); [exact IH|].
    rewrite (bind_Ok_l _ _ _ _ _ (deref_Some _ _ _ He')).
    rewrite Hphys'. reflexivity.
Qed.

(** [ExploreGroup] does not pass over physical expressions either: it
    hands every expression of the group to [ExploreExpression]. *)
Lemma ExploreGroup_explores_physical (fuel : nat) (id : GroupID)
    (w : World) (g : Group) (gexpr : GExprPtr) (rest : list GExprPtr)
    (e : GroupExpression) :
  groups (st w) !! id = Some g →
  GetExpressions g = gexpr :: rest →
  gexprs (st w) !! gexpr = Some e →
  IsLogical (Op e) = false →
  ExploreGroup (S fuel) id w = Err AssertionFailed.
Proof.
  intros Hg Hexprs He Hlog. unfold ExploreGroup, ExploreGroup_body.
  rewrite (bind_Ok_l _ _ _ _ _ (GetGroupByID_Some _ _ _ Hg)).
  apply bind_Err_l. rewrite Hexprs. simpl. apply bind_Err_l.
  unfold ExploreExpression_body.
  rewrite (bind_Ok_l _ _ _ _ _ (deref_Some _ _ _ He)).
  rewrite Hlog. reflexivity.
Qed.

End DriverProperties.

(** ** Memo insertion along an operator tree *)
Section MemoInsertion.
Context `{Components}.

Lemma OpExpression_tree_ind (P : OpExpression → Prop) :
  (∀ op children, Forall P children → P (OpExpr op children)) →
  ∀ expr, P expr.
Proof.
  intros Hstep. fix IH 1. intros [op children]. apply Hstep.
  induction children as [|c cs IHcs]; constructor; [apply IH | exact IHcs].
Qed.

(** The recursive definition agrees with the three functions of the
    source: [MemoTransformedExpression] makes the group expression (whose
    children [MemoTransformedChildren] has memoized), inserts it and
    returns its group. *)
Lemma MemoTransformedExpression_eq (expr : OpExpression) (w : World) :
  MemoTransformedExpression expr w
  = (gexpr ← MakeGroupExpression expr;
     Memo_InsertExpression gexpr UNDEFINED_GROUP;;
     e ← deref gexpr;
     mret (GetGroupID e)) w.
Proof.
  destruct expr as [op children]. simpl.
  unfold MakeGroupExpression, MemoTransformedChildren. simpl.
  rewrite !bind_unfold.
  assert (∀ acc w,
    (fix MemoChildren (cs : list OpExpression) (child_groups : list GroupID)
       : M (list GroupID) :=
       match cs with
       | [] => mret child_groups
       | child :: cs' =>
           g ← MemoTransformedExpression child;
           MemoChildren cs' (child_groups ++ [g])
       end) children acc w
    = for_fold children acc
        (λ child_groups child,
           g ← MemoTransformedExpression child;
           mret (child_groups ++ [g])) w) as ->.
  { induction children as [|c cs IH]; intros acc w0; [reflexivity|].
    simpl. rewrite !bind_unfold.
    destruct (MemoTransformedExpression c w0) as [[g w1]|f]; [|reflexivity].
    simpl. apply IH. }
  destruct (for_fold children [] _ w) as [[child_groups w1]|f]; reflexivity.
Qed.

End MemoInsertion.

Section Failures.
Context `{Components}.

Lemma fails_only_ret {A} (a : A) : fails_only (mret a).
Proof. intros w f. discriminate. Qed.

Lemma fails_only_fail {A} f : raised_by_code f → fails_only (fail (A := A) f).
Proof. intros Hf w f' [= <-]. exact Hf. Qed.

Lemma fails_only_bind {A B} (m : M A) (k : A → M B) :
  fails_only m → (∀ a, fails_only (k a)) → fails_only (m ≫= k).
Proof.
  intros Hm Hk w f. rewrite bind_unfold.
  destruct (m w) as [[a w']|f'] eqn:Hrun.
  - apply Hk.
  - intros [= <-]. exact (Hm _ _ Hrun).
Qed.

Lemma fails_only_get_state : fails_only get_state.
Proof. intros w f. discriminate. Qed.

Lemma fails_only_put_state s : fails_only (put_state s).
Proof. intros w f. discriminate. Qed.

Lemma fails_only_emit ev : fails_only (emit ev).
Proof. intros w f. discriminate. Qed.

Lemma fails_only_PL_ASSERT cond : fails_only (PL_ASSERT cond).
Proof.
  destruct cond; [apply fails_only_ret | apply fails_only_fail; exact I].
Qed.

Lemma fails_only_deref gexpr : fails_only (deref gexpr).
Proof.
  apply fails_only_bind; [apply fails_only_get_state|]. intros s.
  destruct (gexprs s !! gexpr);
    [apply fails_only_ret | apply fails_only_fail; exact I].
Qed.

Lemma fails_only_deref_shared gexpr : fails_only (deref_shared gexpr).
Proof.
  destruct gexpr; [apply fails_only_deref | apply fails_only_fail; exact I].
Qed.

Lemma fails_only_make_shared e : fails_only (make_shared e).
Proof.
  apply fails_only_bind; [apply fails_only_get_state|]. intros s.
  apply fails_only_bind; [apply fails_only_put_state|]. intros _.
  apply fails_only_ret.
Qed.

Lemma fails_only_GetGroupByID id : fails_only (GetGroupByID id).
Proof.
  apply fails_only_bind; [apply fails_only_get_state|]. intros s.
  destruct (groups s !! id);
    [apply fails_only_ret | apply fails_only_fail; exact I].
Qed.

Lemma fails_only_update_group id f : fails_only (update_group id f).
Proof.
  apply fails_only_bind; [apply fails_only_GetGroupByID|]. intros g.
  apply fails_only_bind; [apply fails_only_get_state|]. intros s.
  apply fails_only_put_state.
Qed.

Lemma fails_only_at_index {A} (v : list A) i : fails_only (at_index v i).
Proof.
  unfold at_index.
  destruct (v !! i); [apply fails_only_ret | apply fails_only_fail; exact I].
Qed.

Lemma fails_only_for_each {A} (l : list A) (body : A → M unit) :
  (∀ x, fails_only (body x)) → fails_only (for_each l body).
Proof.
  intros Hbody. induction l as [|x l IH]; [apply fails_only_ret|].
  simpl. apply fails_only_bind; [apply Hbody | intros _; exact IH].
Qed.

Lemma fails_only_for_fold {A B} (l : list A) (acc : B) (body : B → A → M B) :
  (∀ acc x, fails_only (body acc x)) → fails_only (for_fold l acc body).
Proof.
  intros Hbody. revert acc. induction l as [|x l IH]; intros acc.
  - apply fails_only_ret.
  - simpl. apply fails_only_bind; [apply Hbody | intros acc'; apply IH].
Qed.

Lemma fails_only_Memo_InsertExpression gexpr target :
  fails_only (Memo_InsertExpression gexpr target).
Proof.
  apply fails_only_bind; [apply fails_only_get_state|]. intros s.
  destruct (InsertExpression s gexpr target) as [s' is_new].
  apply fails_only_bind; [apply fails_only_put_state|]. intros _.
  apply fails_only_ret.
Qed.

Lemma fails_only_for_fold_Forall {A B} (l : list A) (acc : B)
    (body : B → A → M B) :
  Forall (λ x, ∀ acc, fails_only (body acc x)) l →
  fails_only (for_fold l acc body).
Proof.
  intros Hl. revert acc. induction Hl as [|x l Hx _ IH]; intros acc.
  - apply fails_only_ret.
  - simpl. apply fails_only_bind; [apply Hx | intros acc'; apply IH].
Qed.

Lemma fails_only_MemoTransformedChildren expr :
  Forall (λ c, fails_only (MemoTransformedExpression c))
    (OpExpression_Children expr) →
  fails_only (MemoTransformedChildren expr).
Proof.
  intros Hcs. apply fails_only_for_fold_Forall.
  eapply Forall_impl; [exact Hcs|]. intros c Hc acc.
  apply fails_only_bind; [exact Hc | intros g; apply fails_only_ret].
Qed.

Lemma fails_only_MemoTransformedExpression expr :
  fails_only (MemoTransformedExpression expr).
Proof.
  induction expr as [op children IH] using OpExpression_tree_ind.
  intros w f. rewrite MemoTransformedExpression_eq. revert w f.
  apply fails_only_bind.
  - apply fails_only_bind.
    + apply fails_only_MemoTransformedChildren. exact IH.
    + intros child_groups. apply fails_only_make_shared.
  - intros gexpr. apply fails_only_bind.
    + apply fails_only_Memo_InsertExpression.
    + intros _. apply fails_only_bind; [apply fails_only_deref|].
      intros e. apply fails_only_ret.
Qed.

Lemma fails_only_MakeGroupExpression expr :
  fails_only (MakeGroupExpression expr).
Proof.
  apply fails_only_bind.
  - apply fails_only_MemoTransformedChildren.
    apply Forall_forall. intros c _.
    apply fails_only_MemoTransformedExpression.
  - intros child_groups. apply fails_only_make_shared.
Qed.

Lemma fails_only_RecordTransformedExpression expr target :
  fails_only (RecordTransformedExpression expr target).
Proof.
  apply fails_only_bind; [apply fails_only_get_state|]. intros pre.
  apply fails_only_bind; [apply fails_only_MakeGroupExpression|].
  intros gexpr.
  apply fails_only_bind; [apply fails_only_get_state|]. intros handed.
  apply fails_only_bind; [apply fails_only_Memo_InsertExpression|].
  intros is_new.
  apply fails_only_bind; [apply fails_only_emit|]. intros _.
  apply fails_only_ret.
Qed.

Lemma fails_only_TransformExpression gexpr rule :
  fails_only (TransformExpression gexpr rule).
Proof.
  apply fails_only_bind; [apply fails_only_emit|]. intros _.
  apply fails_only_bind; [apply fails_only_get_state|]. intros s.
  apply fails_only_for_fold. intros output_plans plan.
  destruct (Check rule plan); [|apply fails_only_ret].
  apply fails_only_for_fold. intros output_plans' plan'.
  apply fails_only_bind; [apply fails_only_deref|]. intros e.
  apply fails_only_bind; [apply fails_only_RecordTransformedExpression|].
  intros [new_gexpr [|]]; apply fails_only_ret.
Qed.

Lemma fails_only_ExploreGroup_body explore id :
  (∀ gexpr, fails_only (explore gexpr)) →
  fails_only (ExploreGroup_body explore id).
Proof.
  intros Hexplore.
  apply fails_only_bind; [apply fails_only_GetGroupByID|]. intros group.
  apply fails_only_bind; [apply fails_only_for_each, Hexplore|]. intros _.
  apply fails_only_update_group.
Qed.

Lemma fails_only_ExploreExpression fuel gexpr :
  fails_only (ExploreExpression fuel gexpr).
Proof.
  revert gexpr. induction fuel as [|fuel IH]; intros gexpr.
  - apply fails_only_fail. exact I.
  - simpl. unfold ExploreExpression_body.
    apply fails_only_bind; [apply fails_only_deref|]. intros e.
    apply fails_only_bind; [apply fails_only_PL_ASSERT|]. intros _.
    apply fails_only_bind.
    { apply fails_only_for_each. intros rule.
      apply fails_only_bind; [apply fails_only_TransformExpression|].
      intros candidates. apply fails_only_for_each, IH. }
    intros _.
    apply fails_only_bind; [apply fails_only_deref|]. intros e'.
    apply fails_only_for_each. intros child_id.
    apply fails_only_bind; [apply fails_only_GetGroupByID|]. intros child.
    destruct (negb (HasExplored child)); [|apply fails_only_ret].
    apply fails_only_ExploreGroup_body, IH.
Qed.

Lemma fails_only_DeriveStatsAndCost gexpr out ins stats costs :
  fails_only (DeriveStatsAndCost gexpr out ins stats costs).
Proof.
  apply fails_only_bind; [apply fails_only_deref|]. intros e.
  apply fails_only_bind; [apply fails_only_get_state|]. intros s.
  apply fails_only_bind; [apply fails_only_put_state|]. intros _.
  apply fails_only_emit.
Qed.

Lemma fails_only_SetExpressionCost id gexpr cost requirements :
  fails_only (SetExpressionCost id gexpr cost requirements).
Proof.
  apply fails_only_bind; [apply fails_only_get_state|]. intros pre.
  apply fails_only_bind; [apply fails_only_update_group|]. intros _.
  apply fails_only_emit.
Qed.

Lemma fails_only_OptimizeGroup_body optimize id requirements :
  (∀ gexpr R, fails_only (optimize gexpr R)) →
  fails_only (OptimizeGroup_body optimize id requirements).
Proof.
  intros Hoptimize.
  apply fails_only_bind; [apply fails_only_GetGroupByID|]. intros group.
  destruct (GetBestExpression group requirements); [apply fails_only_ret|].
  apply fails_only_for_each. intros gexpr.
  apply fails_only_bind; [apply fails_only_deref|]. intros e.
  destruct (IsPhysical (Op e)); [apply Hoptimize | apply fails_only_ret].
Qed.

Lemma fails_only_OptimizeExpressionWith derive fuel gexpr requirements :
  fails_only (OptimizeExpressionWith derive fuel gexpr requirements).
Proof.
  revert gexpr requirements.
  induction fuel as [|fuel IH]; intros gexpr requirements.
  - apply fails_only_fail. exact I.
  - simpl. unfold OptimizeExpression_body.
    apply fails_only_bind; [apply fails_only_deref|]. intros e.
    apply fails_only_bind; [apply fails_only_PL_ASSERT|]. intros _.
    apply fails_only_for_each. intros [output_properties input_properties_list].
    apply fails_only_bind.
    { apply fails_only_for_fold. intros [stats costs] [i child_group_id].
      apply fails_only_bind; [apply fails_only_at_index|]. intros ip.
      apply fails_only_bind.
      { apply fails_only_OptimizeGroup_body, IH. }
      intros _.
      apply fails_only_bind; [apply fails_only_GetGroupByID|]. intros child.
      apply fails_only_bind; [apply fails_only_PL_ASSERT|]. intros _.
      apply fails_only_bind; [apply fails_only_deref_shared|]. intros best.
      apply fails_only_ret. }
    intros [stats costs].
    apply fails_only_bind; [apply fails_only_DeriveStatsAndCost|]. intros _.
    destruct (PropertySet_ge output_properties requirements);
      [|apply fails_only_ret].
    apply fails_only_bind; [apply fails_only_deref|]. intros e'.
    apply fails_only_SetExpressionCost.
Qed.

Lemma fails_only_ChooseBestPlan fuel id requirements :
  fails_only (ChooseBestPlan fuel id requirements).
Proof.
  revert id requirements. induction fuel as [|fuel IH]; intros id requirements.
  - apply fails_only_fail. exact I.
  - simpl.
    apply fails_only_bind; [apply fails_only_GetGroupByID|]. intros group.
    apply fails_only_bind; [apply fails_only_deref_shared|]. intros gexpr.
    apply fails_only_for_fold. intros op [i child_group].
    apply fails_only_bind; [apply fails_only_at_index|]. intros requirement.
    apply fails_only_bind; [apply IH|]. intros child_op.
    apply fails_only_ret.
Qed.

(** C8.  The driver checks no cancellation token.  [ExploreExpression],
    [OptimizeExpression] and [ChooseBestPlan] take no token and check
    nothing of the kind on entry: whether or not a token is tripped, and
    whatever the state and the call depth, none of them returns
    [Cancelled]. *)
Theorem driver_never_returns_Cancelled (fuel : nat) (gexpr : GExprPtr)
    (id : GroupID) (requirements : PropertySet) (token_tripped : bool)
    (w : World) :
  with_token (ExploreExpression fuel gexpr) token_tripped w ≠ Err Cancelled
  ∧ with_token (OptimizeExpression fuel gexpr requirements) token_tripped w
    ≠ Err Cancelled
  ∧ with_token (ChooseBestPlan fuel id requirements) token_tripped w
    ≠ Err Cancelled.
Proof.
  unfold with_token. split; [|split]; intros Hrun.
  - exact (fails_only_ExploreExpression _ _ _ _ Hrun).
  - exact (fails_only_OptimizeExpressionWith _ _ _ _ _ _ Hrun).
  - exact (fails_only_ChooseBestPlan _ _ _ _ _ Hrun).
Qed.

End Failures.

(** ** Extraction of the children *)
Section Extraction.
Context `{Components}.

Lemma extraction_loop (choose : GroupID → PropertySet → M OpExpression)
    (op : Operator) (required_input_props : list PropertySet)
    (child_groups : list GroupID) (k : nat) (done : list OpExpression)
    (w : World) :
  (k + length child_groups ≤ length required_input_props)%nat →
  for_fold (imap (λ i, pair (k + i)%nat) child_groups) (OpExpr op done)
    (λ op '(i, child_group),
       requirement ← at_index required_input_props i;
       child_op ← choose child_group requirement;
       mret (PushChild op child_op)) w
  = (child_ops ←
       extract_each choose (zip child_groups (drop k required_input_props));
     mret (OpExpr op (done ++ child_ops))) w.
Proof.
  revert k done w.
  induction child_groups as [|c cs IH]; intros k done w Hlen.
  - simpl. rewrite bind_unfold. simpl. rewrite app_nil_r. reflexivity.
  - simpl in Hlen.
    destruct (lookup_lt_is_Some_2 required_input_props k) as [r Hr]; [lia|].
    rewrite (drop_S _ _ _ Hr). simpl.
    rewrite Nat.add_0_r, (at_index_Some _ _ _ Hr).
    rewrite !bind_unfold. simpl. rewrite !bind_unfold.
    destruct (choose c r w) as [[child_op w1]|f]; [|reflexivity].
    simpl.
    rewrite (imap_ext _ (λ i, pair (S k + i)%nat) cs)
      by (intros; simpl; f_equal; lia).
    rewrite IH by lia.
    rewrite !bind_unfold.
    destruct (extract_each choose _ w1) as [[child_ops w2]|f]; [|reflexivity].
    simpl. rewrite <- app_assoc. reflexivity.
Qed.

(** For a winning expression, [ChooseBestPlan] extracts child [i] under
    entry [i] of the requirement list of the expression's operator,
    [RequiredInputProperties()], and under the default (empty) property
    set when the operator gives no list; the plan is the operator over
    the children's plans. *)
Theorem ChooseBestPlan_children (fuel : nat) (id : GroupID)
    (requirements : PropertySet) (w : World) (g : Group) (gexpr : GExprPtr)
    (e : GroupExpression) :
  groups (st w) !! id = Some g →
  GetBestExpression g requirements = Some gexpr →
  gexprs (st w) !! gexpr = Some e →
  RequiredInputProperties (Op e) = []
  ∨ (length (GetChildGroupIDs e)
     ≤ length (RequiredInputProperties (Op e)))%nat →
  ChooseBestPlan (S fuel) id requirements w
    = extract_under (ChooseBestPlan fuel) e
        (if bool_decide (RequiredInputProperties (Op e) = [])
         then replicate (length (GetChildGroupIDs e)) PropertySet_default
         else RequiredInputProperties (Op e)) w.
Proof.
  intros Hg Hbest He Hlen. simpl.
  rewrite (bind_Ok_l _ _ _ _ _ (GetGroupByID_Some _ _ _ Hg)).
  rewrite Hbest. simpl.
  rewrite (bind_Ok_l _ _ _ _ _ (deref_Some _ _ _ He)).
  unfold extract_under, indexed.
  fold (required_input_props_of e).
  rewrite (imap_ext pair (λ i, pair (0 + i)%nat) (GetChildGroupIDs e))
    by reflexivity.
  rewrite extraction_loop.
  - rewrite drop_0. reflexivity.
  - unfold required_input_props_of. simpl. case_bool_decide as Hnil.
    + rewrite length_replicate. lia.
    + destruct Hlen as [Hlen|Hlen]; [contradiction | exact Hlen].
Qed.

End Extraction.

(** ** What a run leaves behind

    Inversion of the primitive steps, and loops that keep a reflexive and
    transitive relation between the world before and the world after. *)
Section Runs.
Context `{Components}.

Lemma get_state_Ok w s w' : get_state w = Ok (s, w') → s = st w ∧ w' = w.
Proof. intros [= <- <-]. auto. Qed.

Lemma emit_Ok ev w u w' :
  emit ev w = Ok (u, w') → st w' = st w ∧ log w' = log w ++ [ev].
Proof. intros [= _ <-]. auto. Qed.

Lemma put_state_Ok s w u w' :
  put_state s w = Ok (u, w') → st w' = s ∧ log w' = log w.
Proof. intros [= _ <-]. auto. Qed.

Lemma PL_ASSERT_Ok cond w u w' :
  PL_ASSERT cond w = Ok (u, w') → cond = true ∧ w' = w.
Proof. destruct cond; [intros [= _ <-]; auto | discriminate]. Qed.

Lemma at_index_Ok {A} (v : list A) i w x w' :
  at_index v i w = Ok (x, w') → v !! i = Some x ∧ w' = w.
Proof.
  unfold at_index. destruct (v !! i); [intros [= <- <-]; auto | discriminate].
Qed.

Lemma update_group_Ok id f w u w' :
  update_group id f w = Ok (u, w') →
  ∃ g, groups (st w) !! id = Some g ∧ w' = with_group w id (f g).
Proof.
  unfold update_group. intros Hrun.
  apply bind_Ok in Hrun as (g & w1 & Hg & Hrun).
  apply GetGroupByID_Ok in Hg as [-> Hg].
  exists g. split; [exact Hg|].
  rewrite bind_unfold in Hrun. simpl in Hrun.
  injection Hrun as _ <-. reflexivity.
Qed.

Lemma make_shared_Ok e w p w' :
  make_shared e w = Ok (p, w') → log w' = log w.
Proof.
  unfold make_shared. intros Hrun.
  apply bind_Ok in Hrun as (s & w1 & Hs & Hrun).
  apply get_state_Ok in Hs as [-> ->].
  apply bind_Ok in Hrun as (u & w2 & Hput & Hrun).
  apply put_state_Ok in Hput as [_ Hlog].
  injection Hrun as _ <-. exact Hlog.
Qed.

Lemma Memo_InsertExpression_Ok gexpr target w is_new w' :
  Memo_InsertExpression gexpr target w = Ok (is_new, w') →
  log w' = log w ∧ InsertExpression (st w) gexpr target = (st w', is_new).
Proof.
  unfold Memo_InsertExpression. intros Hrun.
  apply bind_Ok in Hrun as (s & w1 & Hs & Hrun).
  apply get_state_Ok in Hs as [-> ->].
  destruct (InsertExpression (st w) gexpr target) as [s' b].
  apply bind_Ok in Hrun as (u & w2 & Hput & Hrun).
  apply put_state_Ok in Hput as [Hst Hlog].
  injection Hrun as <- <-. rewrite Hst. auto.
Qed.

Section Loops.
Variable R : World → World → Prop.
Hypothesis R_refl : ∀ w, R w w.
Hypothesis R_trans : ∀ w1 w2 w3, R w1 w2 → R w2 w3 → R w1 w3.

Lemma for_each_keeps {A} (l : list A) (body : A → M unit) :
  (∀ x, x ∈ l → ∀ w u w', body x w = Ok (u, w') → R w w') →
  ∀ w u w', for_each l body w = Ok (u, w') → R w w'.
Proof.
  induction l as [|x l IH]; intros Hbody w u w' Hrun.
  - injection Hrun as _ <-. apply R_refl.
  - simpl in Hrun. apply bind_Ok in Hrun as (u1 & w1 & Hx & Hrun).
    apply (R_trans _ w1).
    + eapply Hbody; [left|exact Hx].
    + eapply IH; [|exact Hrun]. intros y Hy. apply Hbody. right. exact Hy.
Qed.

Lemma for_fold_keeps {A B} (l : list A) (body : B → A → M B) :
  (∀ x, x ∈ l → ∀ acc w acc' w', body acc x w = Ok (acc', w') → R w w') →
  ∀ acc w acc' w', for_fold l acc body w = Ok (acc', w') → R w w'.
Proof.
  induction l as [|x l IH]; intros Hbody acc w acc' w' Hrun.
  - injection Hrun as _ <-. apply R_refl.
  - simpl in Hrun. apply bind_Ok in Hrun as (acc1 & w1 & Hx & Hrun).
    apply (R_trans _ w1).
    + eapply Hbody; [left|exact Hx].
    + eapply IH; [|exact Hrun]. intros y Hy. apply Hbody. right. exact Hy.
Qed.

End Loops.

Lemma same_log_refl w : same_log w w.
Proof. reflexivity. Qed.

Lemma same_log_trans w1 w2 w3 :
  same_log w1 w2 → same_log w2 w3 → same_log w1 w3.
Proof. unfold same_log. congruence. Qed.

Lemma MemoTransformedChildren_same_log expr w child_groups w' :
  Forall (λ c, ∀ w g w', MemoTransformedExpression c w = Ok (g, w') →
                         same_log w w') (OpExpression_Children expr) →
  MemoTransformedChildren expr w = Ok (child_groups, w') → same_log w w'.
Proof.
  intros Hcs. unfold MemoTransformedChildren.
  apply (for_fold_keeps same_log same_log_refl same_log_trans).
  intros c Hc acc w0 acc' w0' Hrun.
  apply bind_Ok in Hrun as (g & w1 & Hg & Hrun).
  injection Hrun as _ <-.
  rewrite Forall_forall in Hcs. exact (Hcs c Hc _ _ _ Hg).
Qed.

Lemma MemoTransformedExpression_same_log expr :
  ∀ w g w', MemoTransformedExpression expr w = Ok (g, w') → same_log w w'.
Proof.
  induction expr as [op children IH] using OpExpression_tree_ind.
  intros w g w' Hrun. rewrite MemoTransformedExpression_eq in Hrun.
  apply bind_Ok in Hrun as (gexpr & w1 & Hmake & Hrun).
  apply bind_Ok in Hmake as (child_groups & w0 & Hcs & Hmake).
  apply MemoTransformedChildren_same_log in Hcs; [|exact IH].
  apply make_shared_Ok in Hmake.
  apply bind_Ok in Hrun as (is_new & w2 & Hins & Hrun).
  apply Memo_InsertExpression_Ok in Hins as [Hins _].
  apply bind_Ok in Hrun as (e & w3 & He & Hrun).
  apply deref_Ok in He as [-> _]. injection Hrun as _ <-.
  unfold same_log in *. congruence.
Qed.

Lemma MakeGroupExpression_same_log expr w gexpr w' :
  MakeGroupExpression expr w = Ok (gexpr, w') → same_log w w'.
Proof.
  intros Hrun. apply bind_Ok in Hrun as (child_groups & w0 & Hcs & Hmake).
  apply MemoTransformedChildren_same_log in Hcs.
  - apply make_shared_Ok in Hmake. unfold same_log in *. congruence.
  - apply Forall_forall. intros c _. apply MemoTransformedExpression_same_log.
Qed.

(** A call of [RecordTransformedExpression] adds its own record to the
    log, and nothing else. *)
Lemma RecordTransformedExpression_Ok expr target w gexpr is_new w' :
  RecordTransformedExpression expr target w = Ok ((gexpr, is_new), w') →
  ∃ handed,
    log w' = log w ++ [EvRecord (st w) expr target handed gexpr is_new]
    ∧ snd (InsertExpression handed gexpr target) = is_new.
Proof.
  unfold RecordTransformedExpression. intros Hrun.
  apply bind_Ok in Hrun as (pre & w1 & Hpre & Hrun).
  apply get_state_Ok in Hpre as [-> ->].
  apply bind_Ok in Hrun as (p & w2 & Hmake & Hrun).
  apply MakeGroupExpression_same_log in Hmake.
  apply bind_Ok in Hrun as (handed & w2' & Hhanded & Hrun).
  apply get_state_Ok in Hhanded as [-> ->].
  apply bind_Ok in Hrun as (b & w3 & Hins & Hrun).
  apply Memo_InsertExpression_Ok in Hins as [Hins Hmemo].
  apply bind_Ok in Hrun as (u & w4 & Hemit & Hrun).
  apply emit_Ok in Hemit as [_ Hemit].
  injection Hrun as <- <- <-.
  exists (st w2). split.
  - unfold same_log in *. congruence.
  - rewrite Hmemo. reflexivity.
Qed.

(** The same call, by what it does to the state: the memo's insert of the
    group expression made is what the call leaves behind. *)
Lemma RecordTransformedExpression_run expr target w gexpr is_new w' :
  RecordTransformedExpression expr target w = Ok ((gexpr, is_new), w') →
  ∃ handed : World,
    MakeGroupExpression expr w = Ok (gexpr, handed)
    ∧ InsertExpression (st handed) gexpr target = (st w', is_new)
    ∧ log w' = log handed
                 ++ [EvRecord (st w) expr target (st handed) gexpr is_new].
Proof.
  unfold RecordTransformedExpression. intros Hrun.
  apply bind_Ok in Hrun as (pre & w1 & Hpre & Hrun).
  apply get_state_Ok in Hpre as [-> ->].
  apply bind_Ok in Hrun as (p & w2 & Hmake & Hrun).
  apply bind_Ok in Hrun as (handed & w2' & Hhanded & Hrun).
  apply get_state_Ok in Hhanded as [-> ->].
  apply bind_Ok in Hrun as (b & w3 & Hins & Hrun).
  apply Memo_InsertExpression_Ok in Hins as [Hins Hmemo].
  apply bind_Ok in Hrun as (u & w4 & Hemit & Hrun).
  apply emit_Ok in Hemit as [Hst Hemit].
  injection Hrun as <- <- <-.
  exists w2. split; [exact Hmake|]. split.
  - rewrite Hst. exact Hmemo.
  - rewrite Hemit, Hins. reflexivity.
Qed.

End Runs.

(** ** Rule application *)
Section RuleApplication.
Context `{Components}.

Lemma new_expressions_cons c calls :
  new_expressions (c :: calls)
  = (if call_is_new c then [call_gexpr c] else []) ++ new_expressions calls.
Proof.
  unfold new_expressions. destruct (call_is_new c) eqn:Hnew.
  - rewrite filter_cons_True by exact Hnew. reflexivity.
  - rewrite filter_cons_False by (rewrite Hnew; discriminate). reflexivity.
Qed.

Lemma new_expressions_app calls1 calls2 :
  new_expressions (calls1 ++ calls2)
  = new_expressions calls1 ++ new_expressions calls2.
Proof.
  unfold new_expressions. rewrite filter_app, fmap_app. reflexivity.
Qed.

(** The inner loop of [TransformExpression], over the plans that one
    binding was transformed into. *)
Lemma integrate_loop (gexpr : GExprPtr) (plans : list OpExpression) :
  ∀ output_plans w output_plans' w',
    for_fold plans output_plans
      (λ output_plans plan,
         e ← deref gexpr;
         '(new_gexpr, new_expression) ←
           RecordTransformedExpression plan (GetGroupID e);
         if new_expression : bool
         then mret (output_plans ++ [new_gexpr])
         else mret output_plans) w = Ok (output_plans', w') →
    ∃ calls,
      log w' = log w ++ (record_event <$> calls)
      ∧ call_expr <$> calls = plans
      ∧ Forall (targets_group_of gexpr) calls
      ∧ output_plans' = output_plans ++ new_expressions calls
      ∧ records_into_memo w calls w'.
Proof.
  induction plans as [|plan plans IH]; intros out w out' w' Hrun.
  - injection Hrun as <- <-. exists [].
    simpl. rewrite !app_nil_r. auto.
  - simpl in Hrun. apply bind_Ok in Hrun as (out1 & w1 & Hbody & Hrun).
    apply bind_Ok in Hbody as (e & w0 & He & Hbody).
    apply deref_Ok in He as [-> He].
    apply bind_Ok in Hbody as ([p b] & w2 & Hrec & Hbody).
    apply RecordTransformedExpression_run in Hrec
      as (handed & Hmake & Hmemo & Hrec).
    assert (out1 = out ++ (if b then [p] else []) ∧ w1 = w2) as [-> ->].
    { destruct b; injection Hbody as <- <-; rewrite ?app_nil_r; auto. }
    destruct (IH _ _ _ _ Hrun)
      as (calls & Hlog & Hexprs & Htargets & Hout & Hmemos).
    pose proof (MakeGroupExpression_same_log _ _ _ _ Hmake) as Hsame.
    exists ({| call_pre := st w; call_expr := plan;
               call_target := GetGroupID e; call_handed := st handed;
               call_gexpr := p; call_is_new := b |} :: calls).
    split; [|split; [|split; [|split]]].
    + rewrite Hlog, Hrec, Hsame, <- app_assoc. reflexivity.
    + rewrite fmap_cons, Hexprs. reflexivity.
    + constructor; [|exact Htargets].
      split; [exists e; auto | simpl; rewrite Hmemo; reflexivity].
    + rewrite Hout, new_expressions_cons, app_assoc. reflexivity.
    + simpl. split; [reflexivity|]. exists handed.
      split; [exact Hmake|]. split; [reflexivity|].
      unfold record_event. simpl. rewrite Hmemo. simpl.
      rewrite <- Hrec. destruct w2 as [s2 l2]. exact Hmemos.
Qed.

Lemma records_into_memo_app w calls1 w1 calls2 w2 :
  records_into_memo w calls1 w1 → records_into_memo w1 calls2 w2 →
  records_into_memo w (calls1 ++ calls2) w2.
Proof.
  revert w. induction calls1 as [|c calls1 IH]; intros w H1 H2.
  - simpl in H1. subst w1. exact H2.
  - destruct H1 as (Hpre & handed & Hmake & Hhanded & H1).
    simpl. split; [exact Hpre|]. exists handed.
    split; [exact Hmake|]. split; [exact Hhanded|].
    apply IH; assumption.
Qed.

(** The outer loop, over the bindings of the pattern. *)
Lemma bindings_loop (gexpr : GExprPtr) (rule : Rule)
    (bindings : list OpExpression) :
  ∀ output_plans w output_plans' w',
    for_fold bindings output_plans
      (λ output_plans plan,
         if Check rule plan then
           for_fold (Transform rule plan) output_plans
             (λ output_plans plan,
                e ← deref gexpr;
                '(new_gexpr, new_expression) ←
                  RecordTransformedExpression plan (GetGroupID e);
                if new_expression : bool
                then mret (output_plans ++ [new_gexpr])
                else mret output_plans)
         else mret output_plans) w = Ok (output_plans', w') →
    ∃ calls,
      log w' = log w ++ (record_event <$> calls)
      ∧ call_expr <$> calls = transformed_plans rule bindings
      ∧ Forall (targets_group_of gexpr) calls
      ∧ output_plans' = output_plans ++ new_expressions calls
      ∧ records_into_memo w calls w'.
Proof.
  induction bindings as [|plan bindings IH]; intros out w out' w' Hrun.
  - injection Hrun as <- <-. exists [].
    simpl. rewrite !app_nil_r. auto.
  - simpl in Hrun. apply bind_Ok in Hrun as (out1 & w1 & Hbody & Hrun).
    destruct (IH _ _ _ _ Hrun)
      as (calls2 & Hlog2 & Hexprs2 & Htargets2 & Hout2 & Hmemos2).
    unfold transformed_plans. rewrite fmap_cons. simpl.
    destruct (Check rule plan).
    + apply integrate_loop in Hbody
        as (calls1 & Hlog1 & Hexprs1 & Htargets1 & Hout1 & Hmemos1).
      exists (calls1 ++ calls2). split; [|split; [|split; [|split]]].
      * rewrite Hlog2, Hlog1, fmap_app, app_assoc. reflexivity.
      * rewrite fmap_app, Hexprs1, Hexprs2. reflexivity.
      * apply Forall_app. auto.
      * rewrite Hout2, Hout1, new_expressions_app, app_assoc. reflexivity.
      * exact (records_into_memo_app _ _ _ _ _ Hmemos1 Hmemos2).
    + injection Hbody as <- <-. exists calls2. auto.
Qed.

(** C6.  [TransformExpression] records every operator tree that the rule
    yields on the bindings of its pattern, each with the group of the
    source expression as target group of the memo insert, and returns
    exactly the group expressions that the memo insert reported as new,
    in the order recorded.  The records are made into the memo: the
    world the call leaves is the one reached by building, for each tree
    in turn, its group expression and handing it to the memo's insert,
    each in the state the insert before it returned. *)
Theorem TransformExpression_records (gexpr : GExprPtr) (rule : Rule)
    (w : World) (output_plans : list GExprPtr) (w' : World) :
  TransformExpression gexpr rule w = Ok (output_plans, w') →
  ∃ calls : list RecordCall,
    log w' = log w ++ EvTransformExpression gexpr rule
                        :: (record_event <$> calls)
    ∧ call_expr <$> calls
      = transformed_plans rule
          (ItemBindings (st w) gexpr (GetMatchPattern rule))
    ∧ Forall (targets_group_of gexpr) calls
    ∧ output_plans = new_expressions calls
    ∧ records_into_memo
        {| st := st w; log := log w ++ [EvTransformExpression gexpr rule] |}
        calls w'.
Proof.
  unfold TransformExpression. intros Hrun.
  apply bind_Ok in Hrun as (u & w0 & Hemit & Hrun).
  injection Hemit as _ <-.
  apply bind_Ok in Hrun as (s & w1 & Hs & Hrun).
  apply get_state_Ok in Hs as [-> ->]. simpl in Hrun.
  apply bindings_loop in Hrun
    as (calls & Hlog & Hexprs & Htargets & Hout & Hmemos).
  exists calls. split; [|split; [|split; [|split]]]; try assumption.
  rewrite Hlog. simpl. rewrite <- app_assoc. reflexivity.
Qed.

End RuleApplication.

(** ** Costing *)
Section CostingProperties.
Context `{Components}.

Lemma improves_refl b : improves b b.
Proof. left. reflexivity. Qed.

Lemma best_binding_with_group w id g id' requirements :
  best_binding (with_group w id g) id' requirements
  = if decide (id = id') then lowest_cost_expressions g !! requirements
    else best_binding w id' requirements.
Proof.
  unfold best_binding, with_group. simpl. rewrite lookup_insert.
  destruct (decide (id = id')); reflexivity.
Qed.

Lemma Group_SetExpressionCost_binding g gexpr cost requirements R' :
  lowest_cost_expressions (Group_SetExpressionCost g gexpr cost requirements)
    !! R' = lowest_cost_expressions g !! R'
  ∨ (R' = requirements
     ∧ lowest_cost_expressions
         (Group_SetExpressionCost g gexpr cost requirements) !! R'
       = Some (cost, gexpr)
     ∧ match lowest_cost_expressions g !! R' with
       | Some (incumbent, _) => Cost_lt cost incumbent = true
       | None => True
       end).
Proof.
  unfold Group_SetExpressionCost.
  destruct (lowest_cost_expressions g !! requirements)
    as [[incumbent p]|] eqn:Hold.
  - destruct (Cost_lt cost incumbent) eqn:Hlt; [|left; reflexivity].
    simpl. destruct (decide (requirements = R')) as [<-|Hne].
    + right. rewrite lookup_insert_eq, Hold. auto.
    + left. apply lookup_insert_ne, Hne.
  - simpl. destruct (decide (requirements = R')) as [<-|Hne].
    + right. rewrite lookup_insert_eq, Hold. auto.
    + left. apply lookup_insert_ne, Hne.
Qed.

Section CostingRuns.
Variable derive :
  GroupExpression → PropertySet → list (PropertySet * list PropertySet).
(** [<] on costs is transitive. *)
Hypothesis Cost_lt_trans :
  ∀ a b c, Cost_lt a b = true → Cost_lt b c = true → Cost_lt a c = true.

Lemma improves_trans b1 b2 b3 :
  improves b1 b2 → improves b2 b3 → improves b1 b3.
Proof.
  intros H12 [->|(c3 & p3 & -> & H23)]; [exact H12|].
  destruct H12 as [->|(c2 & p2 & -> & H12)].
  - right. eauto.
  - right. exists c3, p3. split; [reflexivity|].
    destruct b1 as [[c1 p1]|]; [|exact I]. eauto.
Qed.

Lemma costing_step_refl w : costing_step derive w w.
Proof.
  exists []. rewrite app_nil_r.
  repeat split; [constructor|intros; apply improves_refl|auto].
Qed.

Lemma costing_step_trans w1 w2 w3 :
  costing_step derive w1 w2 → costing_step derive w2 w3 →
  costing_step derive w1 w3.
Proof.
  intros (evs1 & Hlog1 & Hreg1 & Himp1 & Hev1)
         (evs2 & Hlog2 & Hreg2 & Himp2 & Hev2).
  exists (evs1 ++ evs2). repeat split.
  - rewrite Hlog2, Hlog1, app_assoc. reflexivity.
  - apply Forall_app. auto.
  - intros id R. eapply improves_trans; [apply Himp1 | apply Himp2].
  - intros id R.
    destruct (Hev2 id R) as [Heq|(pre & c & p & Hb & Hin)].
    + rewrite Heq.
      destruct (Hev1 id R) as [Heq1|(pre & c & p & Hb & Hin)]; [auto|].
      right. exists pre, c, p. split; [exact Hb|].
      apply elem_of_app. auto.
    + right. exists pre, c, p. split; [exact Hb|].
      apply elem_of_app. auto.
Qed.

Lemma costing_step_same w w' :
  st w' = st w → log w' = log w → costing_step derive w w'.
Proof.
  intros Hst Hlog. exists []. rewrite app_nil_r.
  unfold best_binding. rewrite Hst.
  repeat split; [exact Hlog|constructor|intros; apply improves_refl|auto].
Qed.

Lemma DeriveStatsAndCost_step gexpr out ins stats costs w u w' :
  DeriveStatsAndCost gexpr out ins stats costs w = Ok (u, w') →
  costing_step derive w w'.
Proof.
  unfold DeriveStatsAndCost. intros Hrun.
  apply bind_Ok in Hrun as (e & w0 & He & Hrun).
  apply deref_Ok in He as [-> He].
  apply bind_Ok in Hrun as (s & w1 & Hs & Hrun).
  apply get_state_Ok in Hs as [-> ->].
  apply bind_Ok in Hrun as (u1 & w2 & Hput & Hrun).
  apply put_state_Ok in Hput as [Hst Hlog].
  apply emit_Ok in Hrun as [Hst' Hlog'].
  exists [EvDeriveStatsAndCost gexpr out ins].
  unfold best_binding. rewrite Hst', Hst. simpl.
  repeat split.
  - congruence.
  - repeat constructor.
  - intros; apply improves_refl.
  - auto.
Qed.

Lemma SetExpressionCost_step id gexpr cost requirements w u w' :
  registered_under derive
    (EvSetExpressionCost (st w) id gexpr cost requirements) →
  SetExpressionCost id gexpr cost requirements w = Ok (u, w') →
  costing_step derive w w'.
Proof.
  unfold SetExpressionCost. intros Hreg Hrun.
  apply bind_Ok in Hrun as (pre & w0 & Hpre & Hrun).
  apply get_state_Ok in Hpre as [-> ->].
  apply bind_Ok in Hrun as (u1 & w1 & Hupd & Hrun).
  apply update_group_Ok in Hupd as (g & Hg & ->).
  apply emit_Ok in Hrun as [Hst Hlog].
  exists [EvSetExpressionCost (st w) id gexpr cost requirements].
  assert (∀ id' R',
    best_binding w' id' R' = best_binding w id' R'
    ∨ (id' = id ∧ R' = requirements
       ∧ best_binding w' id' R' = Some (cost, gexpr)
       ∧ match best_binding w id' R' with
         | Some (incumbent, _) => Cost_lt cost incumbent = true
         | None => True
         end)) as Hcases.
  { intros id' R'.
    assert (best_binding w' id' R'
            = best_binding
                (with_group w id
                   (Group_SetExpressionCost g gexpr cost requirements))
                id' R') as ->.
    { unfold best_binding. rewrite Hst. reflexivity. }
    rewrite best_binding_with_group.
    destruct (decide (id = id')) as [<-|Hne]; [|left; reflexivity].
    unfold best_binding. rewrite Hg.
    destruct (Group_SetExpressionCost_binding g gexpr cost requirements R')
      as [Heq|(-> & Hnew & Hold)]; [left; exact Heq|].
    right. auto. }
  repeat split.
  - exact Hlog.
  - repeat constructor. exact Hreg.
  - intros id' R'.
    destruct (Hcases id' R') as [->|(_ & _ & Hnew & Hold)];
      [apply improves_refl|].
    right. eauto.
  - intros id' R'.
    destruct (Hcases id' R') as [Heq|(-> & -> & Hnew & _)]; [auto|].
    right. exists (st w), cost, gexpr. split; [exact Hnew|].
    apply list_elem_of_singleton. reflexivity.
Qed.

Lemma deref_shared_Ok gexpr e w w' :
  deref_shared gexpr w = Ok (e, w') → w' = w.
Proof.
  destruct gexpr as [p|]; [|discriminate].
  intros Hrun. apply deref_Ok in Hrun as [-> _]. reflexivity.
Qed.

Lemma OptimizeGroup_body_step optimize id requirements :
  (∀ gexpr R w u w', optimize gexpr R w = Ok (u, w') →
                     costing_step derive w w') →
  ∀ w u w', OptimizeGroup_body optimize id requirements w = Ok (u, w') →
            costing_step derive w w'.
Proof.
  intros Hoptimize w u w' Hrun. unfold OptimizeGroup_body in Hrun.
  apply bind_Ok in Hrun as (group & w0 & Hg & Hrun).
  apply GetGroupByID_Ok in Hg as [-> Hg].
  destruct (GetBestExpression group requirements).
  { injection Hrun as _ <-. apply costing_step_refl. }
  revert Hrun. apply (for_each_keeps (costing_step derive) costing_step_refl
           costing_step_trans).
  intros gexpr _ v u' v' Hrun.
  apply bind_Ok in Hrun as (e & v0 & He & Hrun).
  apply deref_Ok in He as [-> He].
  destruct (IsPhysical (Op e)).
  - exact (Hoptimize _ _ _ _ _ Hrun).
  - injection Hrun as _ <-. apply costing_step_refl.
Qed.

Lemma OptimizeExpressionWith_step fuel :
  ∀ gexpr requirements w u w',
    OptimizeExpressionWith derive fuel gexpr requirements w = Ok (u, w') →
    costing_step derive w w'.
Proof.
  induction fuel as [|fuel IH]; intros gexpr requirements w u w' Hrun;
    [discriminate|].
  simpl in Hrun. unfold OptimizeExpression_body in Hrun.
  apply bind_Ok in Hrun as (e & w0 & He & Hrun).
  apply deref_Ok in He as [-> He].
  apply bind_Ok in Hrun as (u0 & w1 & Hphys & Hrun).
  apply PL_ASSERT_Ok in Hphys as [Hphys ->].
  revert Hrun. apply (for_each_keeps (costing_step derive) costing_step_refl
           costing_step_trans).
  intros [output_properties input_properties_list] Hpair v u' v' Hrun.
  apply bind_Ok in Hrun as ([stats costs] & v1 & Hchildren & Hrun).
  apply (costing_step_trans _ v1).
  { revert Hchildren. apply (for_fold_keeps (costing_step derive) costing_step_refl
             costing_step_trans).
    intros [i child_group_id] _ [stats0 costs0] x [stats1 costs1] x' Hchild.
    apply bind_Ok in Hchild as (ip & x0 & Hip & Hchild).
    apply at_index_Ok in Hip as [_ ->].
    apply bind_Ok in Hchild as (u1 & x1 & Hgroup & Hchild).
    apply (OptimizeGroup_body_step _ _ _ IH) in Hgroup.
    apply bind_Ok in Hchild as (child & x2 & Hc & Hchild).
    apply GetGroupByID_Ok in Hc as [-> _].
    apply bind_Ok in Hchild as (u2 & x3 & Hassert & Hchild).
    apply PL_ASSERT_Ok in Hassert as [_ ->].
    apply bind_Ok in Hchild as (best & x4 & Hbest & Hchild).
    apply deref_shared_Ok in Hbest as ->.
    injection Hchild as _ _ <-. exact Hgroup. }
  apply bind_Ok in Hrun as (u1 & v2 & Hderive & Hrun).
  apply (costing_step_trans _ v2);
    [exact (DeriveStatsAndCost_step _ _ _ _ _ _ _ _ Hderive)|].
  destruct (PropertySet_ge output_properties requirements) eqn:Hge.
  - apply bind_Ok in Hrun as (e' & v3 & He' & Hrun).
    apply deref_Ok in He' as [-> He'].
    eapply SetExpressionCost_step; [|exact Hrun].
    exists e', e, output_properties, input_properties_list. auto.
  - injection Hrun as _ <-. apply costing_step_refl.
Qed.

(** C5.  In a run of [OptimizeExpression], for whatever derivation of
    property pairs it is given, every cost registered for a group under
    requirements [R] is the cost of a derived pair whose output
    properties subsume [R]; a best-expression binding changes only to a
    strictly lower cost than the incumbent's (or from no binding), and
    every binding that changed was registered in this way. *)
Theorem OptimizeExpression_registers_subsuming (fuel : nat)
    (gexpr : GExprPtr) (requirements : PropertySet) (w w' : World) :
  OptimizeExpressionWith derive fuel gexpr requirements w = Ok (tt, w') →
  ∃ evs,
    log w' = log w ++ evs
    ∧ Forall (registered_under derive) evs
    ∧ (∀ id R,
         improves (best_binding w id R) (best_binding w' id R))
    ∧ (∀ id R,
         best_binding w' id R = best_binding w id R
         ∨ ∃ pre cost p,
             best_binding w' id R = Some (cost, p)
             ∧ EvSetExpressionCost pre id p cost R ∈ evs).
Proof. apply OptimizeExpressionWith_step. Qed.

End CostingRuns.

End CostingProperties.

(** * Further properties of the driver *)

(** ** Extraction reads the memo and writes nothing *)
Section ExtractionRuns.
Context `{Components}.

Lemma ChooseBestPlan_same_world (fuel : nat) :
  ∀ id requirements w plan w',
    ChooseBestPlan fuel id requirements w = Ok (plan, w') → w' = w.
Proof.
  induction fuel as [|fuel IH]; intros id requirements w plan w' Hrun;
    [discriminate|].
  simpl in Hrun.
  apply bind_Ok in Hrun as (group & w0 & Hg & Hrun).
  apply GetGroupByID_Ok in Hg as [-> _].
  apply bind_Ok in Hrun as (gexpr & w1 & He & Hrun).
  destruct (GetBestExpression group requirements) as [p|]; [|discriminate].
  apply deref_Ok in He as [-> _].
  revert Hrun.
  apply (for_fold_keeps (λ v v', v' = v)); [reflexivity|congruence|].
  intros [i child_group] _ op v op' v' Hbody.
  apply bind_Ok in Hbody as (requirement & v0 & Hr & Hbody).
  apply at_index_Ok in Hr as [_ ->].
  apply bind_Ok in Hbody as (child_op & v1 & Hchild & Hbody).
  apply IH in Hchild as ->. injection Hbody as _ <-. reflexivity.
Qed.

(** [ChooseBestPlan] only reads: when it returns a plan, the memo, the
    store of group expressions and the log are what they were. *)
Theorem ChooseBestPlan_read_only (fuel : nat) (id : GroupID)
    (requirements : PropertySet) (w : World) (plan : OpExpression)
    (w' : World) :
  ChooseBestPlan fuel id requirements w = Ok (plan, w') → w' = w.
Proof. apply ChooseBestPlan_same_world. Qed.

Lemma extraction_loop_shape (choose : GroupID → PropertySet → M OpExpression)
    (op : Operator) (required_input_props : list PropertySet)
    (child_groups : list GroupID) :
  ∀ k done w plan w',
    for_fold (imap (λ i, pair (k + i)%nat) child_groups) (OpExpr op done)
      (λ op '(i, child_group),
         requirement ← at_index required_input_props i;
         child_op ← choose child_group requirement;
         mret (PushChild op child_op)) w = Ok (plan, w') →
    (child_groups = []
     ∨ (k + length child_groups ≤ length required_input_props)%nat)
    ∧ ∃ child_ops, plan = OpExpr op (done ++ child_ops)
                   ∧ length child_ops = length child_groups.
Proof.
  induction child_groups as [|c cs IH]; intros k done w plan w' Hrun.
  - injection Hrun as <- _. split; [left; reflexivity|].
    exists []. rewrite app_nil_r. auto.
  - simpl in Hrun. apply bind_Ok in Hrun as (op1 & w1 & Hbody & Hrun).
    apply bind_Ok in Hbody as (r & w0 & Hr & Hbody).
    apply at_index_Ok in Hr as [Hr ->]. rewrite Nat.add_0_r in Hr.
    apply lookup_lt_Some in Hr.
    apply bind_Ok in Hbody as (child_op & w2 & Hchild & Hbody).
    injection Hbody as <- <-. simpl in Hrun.
    rewrite (imap_ext _ (λ i, pair (S k + i)%nat) cs) in Hrun
      by (intros; simpl; f_equal; lia).
    apply IH in Hrun as [Hlen (child_ops & -> & Hcount)].
    split.
    + right. simpl. destruct Hlen as [->|Hlen]; simpl; lia.
    + exists (child_op :: child_ops). rewrite <- app_assoc. simpl.
      split; [reflexivity | congruence].
Qed.

(** A plan returned by [ChooseBestPlan] is rooted at the operator of the
    group's best expression for the requirements and has one child plan
    per child group of that expression; and the requirement list used for
    the children had an entry for each of them. *)
Theorem ChooseBestPlan_plan_shape (fuel : nat) (id : GroupID)
    (requirements : PropertySet) (w : World) (plan : OpExpression)
    (w' : World) :
  ChooseBestPlan fuel id requirements w = Ok (plan, w') →
  ∃ g gexpr e,
    groups (st w) !! id = Some g
    ∧ GetBestExpression g requirements = Some gexpr
    ∧ gexprs (st w) !! gexpr = Some e
    ∧ OpExpression_Op plan = Op e
    ∧ length (OpExpression_Children plan) = length (GetChildGroupIDs e)
    ∧ (length (GetChildGroupIDs e)
       ≤ length (required_input_props_of e))%nat.
Proof.
  destruct fuel as [|fuel]; [discriminate|]. simpl. intros Hrun.
  apply bind_Ok in Hrun as (g & w0 & Hg & Hrun).
  apply GetGroupByID_Ok in Hg as [-> Hg].
  apply bind_Ok in Hrun as (e & w1 & He & Hrun).
  destruct (GetBestExpression g requirements) as [gexpr|] eqn:Hbest;
    [|discriminate].
  apply deref_Ok in He as [-> He].
  unfold indexed in Hrun.
  rewrite (imap_ext pair (λ i, pair (0 + i)%nat) (GetChildGroupIDs e))
    in Hrun by reflexivity.
  apply extraction_loop_shape in Hrun as [Hlen (child_ops & -> & Hcount)].
  exists g, gexpr, e. repeat split; try assumption.
  destruct Hlen as [->|Hlen]; simpl in *; lia.
Qed.

End ExtractionRuns.

(** ** Costing with the derivation the file has *)
Section StubCosting.
Context `{Components}.

Lemma OptimizeExpression_run (fuel : nat) (gexpr : GExprPtr)
    (requirements : PropertySet) (w : World) :
  OptimizeExpression (S fuel) gexpr requirements w
  = match gexprs (st w) !! gexpr with
    | None => Err NullDereference
    | Some e => if IsPhysical (Op e) then Ok (tt, w) else Err AssertionFailed
    end.
Proof.
  unfold OptimizeExpression. simpl. unfold OptimizeExpression_body.
  destruct (gexprs (st w) !! gexpr) as [e|] eqn:He.
  - rewrite (bind_Ok_l _ _ _ _ _ (deref_Some _ _ _ He)).
    destruct (IsPhysical (Op e)); reflexivity.
  - apply bind_Err_l. unfold deref. rewrite bind_unfold. simpl.
    rewrite He. reflexivity.
Qed.

(** [OptimizeExpression] on an expression whose operator is not physical
    fails its assertion, whatever the requirements. *)
Theorem OptimizeExpression_asserts_physical (fuel : nat) (gexpr : GExprPtr)
    (requirements : PropertySet) (w : World) (e : GroupExpression) :
  gexprs (st w) !! gexpr = Some e →
  IsPhysical (Op e) = false →
  OptimizeExpression (S fuel) gexpr requirements w = Err AssertionFailed.
Proof.
  intros He Hphys. rewrite OptimizeExpression_run, He, Hphys. reflexivity.
Qed.

(** [OptimizeGroup] registers nothing either: on a group with no best
    expression for the requirements it goes through the expressions,
    optimizes the physical ones, and returns with the state unchanged, so
    the group still has no best expression for them. *)
Theorem OptimizeGroup_registers_nothing (fuel : nat) (id : GroupID)
    (requirements : PropertySet) (w : World) (g : Group) :
  groups (st w) !! id = Some g →
  Forall (λ gexpr, is_Some (gexprs (st w) !! gexpr)) (GetExpressions g) →
  OptimizeGroup (S fuel) id requirements w = Ok (tt, w).
Proof.
  intros Hg Hall. unfold OptimizeGroup, OptimizeGroupWith, OptimizeGroup_body.
  rewrite (bind_Ok_l _ _ _ _ _ (GetGroupByID_Some _ _ _ Hg)).
  destruct (GetBestExpression g requirements); [reflexivity|].
  apply for_each_skip. eapply Forall_impl; [exact Hall|].
  intros gexpr [e He]. cbv beta.
  rewrite (bind_Ok_l _ _ _ _ _ (deref_Some _ _ _ He)).
  destruct (IsPhysical (Op e)) eqn:Hphys; [|reflexivity].
  pose proof (OptimizeExpression_run fuel gexpr requirements w) as Hrun.
  unfold OptimizeExpression in Hrun. rewrite Hrun, He, Hphys. reflexivity.
Qed.

End StubCosting.

(** ** Making and recording group expressions *)
Section Recording.
Context `{Components}.

Lemma make_shared_run e w :
  make_shared e w
  = Ok (length (gexprs (st w)),
        {| st := {| groups := groups (st w);
                    gexprs := gexprs (st w) ++ [e];
                    column_manager := column_manager (st w) |};
           log := log w |}).
Proof. reflexivity. Qed.

Lemma MemoTransformedChildren_length expr w child_groups w' :
  MemoTransformedChildren expr w = Ok (child_groups, w') →
  length child_groups = length (OpExpression_Children expr).
Proof.
  unfold MemoTransformedChildren.
  assert (∀ cs acc v acc' v',
            for_fold cs acc
              (λ child_groups child,
                 g ← MemoTransformedExpression child;
                 mret (child_groups ++ [g])) v = Ok (acc', v') →
            length acc' = (length acc + length cs)%nat) as Hloop.
  { induction cs as [|c cs IH]; intros acc v acc' v' Hrun.
    - injection Hrun as <- _. simpl. lia.
    - simpl in Hrun. apply bind_Ok in Hrun as (acc1 & v1 & Hbody & Hrun).
      apply bind_Ok in Hbody as (g & v0 & _ & Hbody).
      injection Hbody as <- _.
      apply IH in Hrun. rewrite Hrun, length_app. simpl. lia. }
  intros Hrun. apply Hloop in Hrun. exact Hrun.
Qed.

(** [MakeGroupExpression] returns a newly allocated group expression,
    the last of the store: it carries the operator of the root of the
    tree and one child group per child of the root, it belongs to no
    group yet and has no cost recorded.  Nothing is written to the
    log. *)
Theorem MakeGroupExpression_fresh (expr : OpExpression) (w : World)
    (gexpr : GExprPtr) (w' : World) :
  MakeGroupExpression expr w = Ok (gexpr, w') →
  ∃ child_groups,
    length child_groups = length (OpExpression_Children expr)
    ∧ gexprs (st w') !! gexpr
      = Some {| Op := OpExpression_Op expr;
                GetChildGroupIDs := child_groups;
                GetGroupID := UNDEFINED_GROUP;
                cost_table := CostTable_empty |}
    ∧ length (gexprs (st w')) = S gexpr
    ∧ log w' = log w.
Proof.
  intros Hrun.
  pose proof (MakeGroupExpression_same_log _ _ _ _ Hrun) as Hlog.
  apply bind_Ok in Hrun as (child_groups & w0 & Hcs & Hmake).
  apply MemoTransformedChildren_length in Hcs.
  rewrite make_shared_run in Hmake. injection Hmake as <- <-.
  exists child_groups. simpl. repeat split.
  - exact Hcs.
  - rewrite lookup_app_r by lia. rewrite Nat.sub_diag. reflexivity.
  - rewrite length_app. simpl. lia.
  - exact Hlog.
Qed.

(** [InsertQueryTree] returns only when the memo reported the root
    expression as new: it records the converted tree once, with the
    undefined group as target, and the memo's answer for that insert was
    "new". *)
Theorem InsertQueryTree_records_new (tree : SQLStatement) (w : World)
    (gexpr : GExprPtr) (w' : World) :
  InsertQueryTree tree w = Ok (gexpr, w') →
  ∃ handed,
    log w'
    = log w
      ++ [EvRecord
            {| groups := groups (st w);
               gexprs := gexprs (st w);
               column_manager :=
                 snd (ConvertQueryToOpExpression (column_manager (st w)) tree)
            |}
            (fst (ConvertQueryToOpExpression (column_manager (st w)) tree))
            UNDEFINED_GROUP handed gexpr true]
    ∧ snd (InsertExpression handed gexpr UNDEFINED_GROUP) = true.
Proof.
  unfold InsertQueryTree. intros Hrun.
  apply bind_Ok in Hrun as (s & w0 & Hs & Hrun).
  apply get_state_Ok in Hs as [-> ->].
  destruct (ConvertQueryToOpExpression (column_manager (st w)) tree)
    as [initial cm].
  apply bind_Ok in Hrun as (u & w1 & Hput & Hrun).
  apply put_state_Ok in Hput as [Hst Hlog].
  apply bind_Ok in Hrun as ([p is_new] & w2 & Hrec & Hrun).
  apply RecordTransformedExpression_Ok in Hrec as (handed & Hrec & Hmemo).
  apply bind_Ok in Hrun as (u' & w3 & Hassert & Hrun).
  apply PL_ASSERT_Ok in Hassert as [-> ->].
  injection Hrun as <- <-.
  exists handed. simpl. rewrite Hrec, Hst, Hlog. auto.
Qed.

Lemma TransformExpression_yields_nothing (gexpr : GExprPtr) (rule : Rule)
    (w : World) :
  Forall (λ plan, Check rule plan = false ∨ Transform rule plan = [])
    (ItemBindings (st w) gexpr (GetMatchPattern rule)) →
  TransformExpression gexpr rule w
  = Ok ([], {| st := st w;
               log := log w ++ [EvTransformExpression gexpr rule] |}).
Proof.
  intros Hnone. unfold TransformExpression.
  rewrite bind_unfold. simpl. rewrite bind_unfold. simpl.
  generalize {| st := st w;
                log := log w ++ [EvTransformExpression gexpr rule] |}.
  induction Hnone as [|plan bindings Hplan _ IH]; intros v; [reflexivity|].
  simpl. rewrite bind_unfold.
  destruct (Check rule plan).
  - destruct Hplan as [Hplan|Hplan]; [discriminate|].
    rewrite Hplan. simpl. apply IH.
  - simpl. apply IH.
Qed.

(** A rule that yields nothing on the bindings of its pattern (no
    binding, a failed [Check], or an empty [Transform]) leaves the state
    alone: [TransformExpression] returns no expression. *)
Theorem TransformExpression_no_match (gexpr : GExprPtr) (rule : Rule)
    (w : World) :
  Forall (λ plan, Check rule plan = false ∨ Transform rule plan = [])
    (ItemBindings (st w) gexpr (GetMatchPattern rule)) →
  TransformExpression gexpr rule w
  = Ok ([], {| st := st w;
               log := log w ++ [EvTransformExpression gexpr rule] |}).
Proof. apply TransformExpression_yields_nothing. Qed.

Lemma exploration_rules_loop (gexpr : GExprPtr) (s : State)
    (explore : GExprPtr → M unit) (rules : list Rule) :
  Forall (λ rule,
            Forall (λ plan, Check rule plan = false
                            ∨ Transform rule plan = [])
              (ItemBindings s gexpr (GetMatchPattern rule))) rules →
  ∀ l,
    for_each rules
      (λ rule,
         candidates ← TransformExpression gexpr rule;
         for_each candidates explore) {| st := s; log := l |}
    = Ok (tt, {| st := s;
                 log := l ++ (EvTransformExpression gexpr <$> rules) |}).
Proof.
  induction 1 as [|rule rules Hrule _ IH]; intros l.
  - simpl. rewrite app_nil_r. reflexivity.
  - simpl. rewrite bind_unfold, bind_unfold.
    rewrite (TransformExpression_yields_nothing gexpr rule
               {| st := s; log := l |} Hrule).
    simpl. rewrite IH, <- app_assoc. reflexivity.
Qed.

(** Where exploration has nothing left to do, it changes nothing: on a
    logical expression for which no logical-transformation rule yields
    anything and whose child groups are all marked explored,
    [ExploreExpression] applies each rule once, in order, and leaves the
    memo and the store of expressions as they were. *)
Theorem ExploreExpression_fixpoint (fuel : nat) (gexpr : GExprPtr)
    (w : World) (e : GroupExpression) :
  gexprs (st w) !! gexpr = Some e →
  IsLogical (Op e) = true →
  Forall (λ rule,
            Forall (λ plan, Check rule plan = false
                            ∨ Transform rule plan = [])
              (ItemBindings (st w) gexpr (GetMatchPattern rule)))
    logical_transformation_rules_ →
  Forall (λ child_id, ∃ child, groups (st w) !! child_id = Some child
                               ∧ HasExplored child = true)
    (GetChildGroupIDs e) →
  ExploreExpression (S fuel) gexpr w
  = Ok (tt, {| st := st w;
               log := log w ++ (EvTransformExpression gexpr
                                  <$> logical_transformation_rules_) |}).
Proof.
  intros He Hlogical Hrules Hchildren. simpl. unfold ExploreExpression_body.
  rewrite (bind_Ok_l _ _ _ _ _ (deref_Some _ _ _ He)).
  rewrite Hlogical. simpl. rewrite bind_unfold. simpl.
  rewrite bind_unfold.
  destruct w as [s l]. simpl in *.
  rewrite (exploration_rules_loop gexpr s _ _ Hrules l).
  set (w1 := {| st := s;
                log := l ++ (EvTransformExpression gexpr
                               <$> logical_transformation_rules_) |}).
  rewrite (bind_Ok_l _ _ _ _ _ (deref_Some gexpr e w1 He)).
  apply for_each_skip. eapply Forall_impl; [exact Hchildren|].
  intros child_id (child & Hchild & Hexplored). simpl.
  rewrite (bind_Ok_l _ _ _ _ _ (GetGroupByID_Some child_id child w1 Hchild)).
  rewrite Hexplored. reflexivity.
Qed.

(** A successful [ExploreGroup] leaves the group marked as explored. *)
Theorem ExploreGroup_marks_explored (fuel : nat) (id : GroupID) (w : World)
    (u : unit) (w' : World) :
  ExploreGroup fuel id w = Ok (u, w') →
  ∃ g, groups (st w') !! id = Some g ∧ HasExplored g = true.
Proof.
  unfold ExploreGroup, ExploreGroup_body. intros Hrun.
  apply bind_Ok in Hrun as (group & w0 & _ & Hrun).
  apply bind_Ok in Hrun as (u1 & w1 & _ & Hrun).
  apply update_group_Ok in Hrun as (g & _ & ->).
  exists (Group_SetExplorationFlag g). simpl.
  rewrite lookup_insert_eq. auto.
Qed.

(** A successful [ImplementGroup] leaves the group marked as
    implemented. *)
Theorem ImplementGroup_marks_implemented (fuel : nat) (id : GroupID)
    (w : World) (u : unit) (w' : World) :
  ImplementGroup fuel id w = Ok (u, w') →
  ∃ g, groups (st w') !! id = Some g ∧ HasImplemented g = true.
Proof.
  unfold ImplementGroup. intros Hrun.
  apply bind_Ok in Hrun as (group & w0 & _ & Hrun).
  apply bind_Ok in Hrun as (u1 & w1 & _ & Hrun).
  apply update_group_Ok in Hrun as (g & _ & ->).
  exists (Group_SetImplementationFlag g). simpl.
  rewrite lookup_insert_eq. auto.
Qed.

Section Allocation.
(** The memo's insert neither adds nor drops a group expression of the
    store. *)
Hypothesis insert_keeps_store :
  ∀ s gexpr target,
    length (gexprs (fst (InsertExpression s gexpr target)))
    = length (gexprs s).

Lemma Memo_InsertExpression_store gexpr target w is_new w' :
  Memo_InsertExpression gexpr target w = Ok (is_new, w') →
  length (gexprs (st w')) = length (gexprs (st w)).
Proof.
  intros Hrun. apply Memo_InsertExpression_Ok in Hrun as [_ Hins].
  rewrite <- (insert_keeps_store (st w) gexpr target), Hins. reflexivity.
Qed.

Lemma MemoTransformedChildren_store expr w child_groups w' :
  Forall (λ c, ∀ w g w',
            MemoTransformedExpression c w = Ok (g, w') →
            length (gexprs (st w'))
            = (length (gexprs (st w)) + node_count c)%nat)
    (OpExpression_Children expr) →
  MemoTransformedChildren expr w = Ok (child_groups, w') →
  length (gexprs (st w'))
  = (length (gexprs (st w))
     + sum_list (map node_count (OpExpression_Children expr)))%nat.
Proof.
  unfold MemoTransformedChildren.
  assert (∀ cs,
    Forall (λ c, ∀ w g w',
              MemoTransformedExpression c w = Ok (g, w') →
              length (gexprs (st w'))
              = (length (gexprs (st w)) + node_count c)%nat) cs →
    ∀ acc v acc' v',
      for_fold cs acc
        (λ child_groups child,
           g ← MemoTransformedExpression child;
           mret (child_groups ++ [g])) v = Ok (acc', v') →
      length (gexprs (st v'))
      = (length (gexprs (st v)) + sum_list (map node_count cs))%nat)
    as Hloop.
  { induction 1 as [|c cs Hc _ IH]; intros acc v acc' v' Hrun.
    - injection Hrun as _ <-. simpl. lia.
    - simpl in Hrun. apply bind_Ok in Hrun as (acc1 & v1 & Hbody & Hrun).
      apply bind_Ok in Hbody as (g & v0 & Hg & Hbody).
      injection Hbody as _ <-.
      apply Hc in Hg. apply IH in Hrun.
      rewrite Hrun, Hg. simpl. lia. }
  intros Hcs Hrun. exact (Hloop _ Hcs _ _ _ _ Hrun).
Qed.

Lemma MemoTransformedExpression_store expr :
  ∀ w g w',
    MemoTransformedExpression expr w = Ok (g, w') →
    length (gexprs (st w')) = (length (gexprs (st w)) + node_count expr)%nat.
Proof.
  induction expr as [op children IH] using OpExpression_tree_ind.
  intros w g w' Hrun. rewrite MemoTransformedExpression_eq in Hrun.
  apply bind_Ok in Hrun as (gexpr & w1 & Hmake & Hrun).
  apply bind_Ok in Hmake as (child_groups & w0 & Hcs & Hmake).
  apply MemoTransformedChildren_store in Hcs; [|exact IH].
  rewrite make_shared_run in Hmake. injection Hmake as _ <-.
  apply bind_Ok in Hrun as (is_new & w2 & Hins & Hrun).
  apply Memo_InsertExpression_store in Hins.
  apply bind_Ok in Hrun as (e & w3 & He & Hrun).
  apply deref_Ok in He as [-> _]. injection Hrun as _ <-.
  rewrite Hins. simpl in *. rewrite length_app, Hcs. simpl. lia.
Qed.

(** [RecordTransformedExpression] allocates one group expression for
    every node of the operator tree it is given, whether the memo knows
    the expression or not, and returns the one allocated last, that of
    the root. *)
Theorem RecordTransformedExpression_allocates (expr : OpExpression)
    (target_group : GroupID) (w : World) (gexpr : GExprPtr) (is_new : bool)
    (w' : World) :
  RecordTransformedExpression expr target_group w
    = Ok ((gexpr, is_new), w') →
  length (gexprs (st w')) = (length (gexprs (st w)) + node_count expr)%nat
  ∧ length (gexprs (st w')) = S gexpr.
Proof.
  unfold RecordTransformedExpression. intros Hrun.
  apply bind_Ok in Hrun as (pre & w1 & Hpre & Hrun).
  apply get_state_Ok in Hpre as [_ ->].
  apply bind_Ok in Hrun as (p & w2 & Hmake & Hrun).
  apply bind_Ok in Hmake as (child_groups & w0 & Hcs & Hmake).
  apply MemoTransformedChildren_store in Hcs;
    [|apply Forall_forall; intros c _; apply MemoTransformedExpression_store].
  rewrite make_shared_run in Hmake. injection Hmake as <- <-.
  apply bind_Ok in Hrun as (handed & w2' & Hhanded & Hrun).
  apply get_state_Ok in Hhanded as [_ ->].
  apply bind_Ok in Hrun as (b & w3 & Hins & Hrun).
  apply Memo_InsertExpression_store in Hins.
  apply bind_Ok in Hrun as (u & w4 & Hemit & Hrun).
  apply emit_Ok in Hemit as [Hst _].
  injection Hrun as <- _ <-.
  rewrite Hst, Hins. simpl. rewrite length_app, Hcs.
  destruct expr as [op children]. simpl. lia.
Qed.

End Allocation.

End Recording.

(** ** Which rules are applied *)
Section RuleDiscipline.
Context `{Components}.

Lemma logs_only_refl P w : logs_only P w w.
Proof. exists []. rewrite app_nil_r. split; [reflexivity|constructor]. Qed.

Lemma logs_only_trans P w1 w2 w3 :
  logs_only P w1 w2 → logs_only P w2 w3 → logs_only P w1 w3.
Proof.
  intros (evs1 & Hlog1 & Hall1) (evs2 & Hlog2 & Hall2).
  exists (evs1 ++ evs2). split.
  - rewrite Hlog2, Hlog1, app_assoc. reflexivity.
  - apply Forall_app. auto.
Qed.

Lemma logs_only_same P w w' : log w' = log w → logs_only P w w'.
Proof.
  intros Hlog. exists []. rewrite app_nil_r. split; [exact Hlog|constructor].
Qed.

Lemma TransformExpression_log gexpr rule w output_plans w' :
  TransformExpression gexpr rule w = Ok (output_plans, w') →
  ∃ calls, log w' = log w ++ EvTransformExpression gexpr rule
                              :: (record_event <$> calls).
Proof.
  unfold TransformExpression. intros Hrun.
  apply bind_Ok in Hrun as (u & w0 & Hemit & Hrun).
  apply emit_Ok in Hemit as [Hst0 Hlog0].
  apply bind_Ok in Hrun as (s & w1 & Hs & Hrun).
  apply get_state_Ok in Hs as [-> ->].
  apply bindings_loop in Hrun as (calls & Hlog & _).
  exists calls. rewrite Hlog, Hlog0, <- app_assoc. reflexivity.
Qed.

Lemma record_events_exploration calls :
  Forall exploration_event (record_event <$> calls).
Proof. apply Forall_fmap, Forall_forall. intros c _. exact I. Qed.

Lemma applied_rules_records calls :
  applied_rules (record_event <$> calls) = [].
Proof. induction calls as [|c calls IH]; [reflexivity | exact IH]. Qed.

Lemma applied_rules_app evs1 evs2 :
  applied_rules (evs1 ++ evs2) = applied_rules evs1 ++ applied_rules evs2.
Proof. apply omap_app. Qed.

Lemma applied_rules_transform gexpr rule evs :
  applied_rules (EvTransformExpression gexpr rule :: evs)
  = (gexpr, rule) :: applied_rules evs.
Proof. reflexivity. Qed.

Lemma TransformExpression_logs_exploration gexpr rule w output_plans w' :
  rule ∈ logical_transformation_rules_ →
  TransformExpression gexpr rule w = Ok (output_plans, w') →
  logs_only exploration_event w w'.
Proof.
  intros Hrule Hrun. apply TransformExpression_log in Hrun as (calls & Hlog).
  eexists. split; [exact Hlog|].
  constructor; [exact Hrule | apply record_events_exploration].
Qed.

Lemma ExploreGroup_body_logs explore id :
  (∀ gexpr w u w', explore gexpr w = Ok (u, w') →
                   logs_only exploration_event w w') →
  ∀ w u w', ExploreGroup_body explore id w = Ok (u, w') →
            logs_only exploration_event w w'.
Proof.
  intros Hexplore w u w' Hrun. unfold ExploreGroup_body in Hrun.
  apply bind_Ok in Hrun as (group & w0 & Hg & Hrun).
  apply GetGroupByID_Ok in Hg as [-> _].
  apply bind_Ok in Hrun as (u1 & w1 & Hloop & Hrun).
  apply (logs_only_trans _ _ w1).
  - revert Hloop.
    apply (for_each_keeps _ (logs_only_refl _) (logs_only_trans _)).
    intros gexpr _. apply Hexplore.
  - apply update_group_Ok in Hrun as (g & _ & ->).
    apply logs_only_same. reflexivity.
Qed.

Lemma ExploreExpression_logs fuel :
  ∀ gexpr w u w', ExploreExpression fuel gexpr w = Ok (u, w') →
                  logs_only exploration_event w w'.
Proof.
  induction fuel as [|fuel IH]; intros gexpr w u w' Hrun; [discriminate|].
  simpl in Hrun. unfold ExploreExpression_body in Hrun.
  apply bind_Ok in Hrun as (e & w0 & He & Hrun).
  apply deref_Ok in He as [-> _].
  apply bind_Ok in Hrun as (u0 & w1 & Hassert & Hrun).
  apply PL_ASSERT_Ok in Hassert as [_ ->].
  apply bind_Ok in Hrun as (u1 & w2 & Hrules & Hrun).
  apply (logs_only_trans _ _ w2).
  { revert Hrules.
    apply (for_each_keeps _ (logs_only_refl _) (logs_only_trans _)).
    intros rule Hrule v u2 v' Hbody.
    apply bind_Ok in Hbody as (candidates & v1 & Htransform & Hbody).
    apply (logs_only_trans _ _ v1).
    - exact (TransformExpression_logs_exploration _ _ _ _ _ Hrule Htransform).
    - revert Hbody.
      apply (for_each_keeps _ (logs_only_refl _) (logs_only_trans _)).
      intros candidate _. apply IH. }
  apply bind_Ok in Hrun as (e' & w3 & He' & Hrun).
  apply deref_Ok in He' as [-> _].
  revert Hrun.
  apply (for_each_keeps _ (logs_only_refl _) (logs_only_trans _)).
  intros child_id _ v u3 v' Hbody.
  apply bind_Ok in Hbody as (child & v1 & Hchild & Hbody).
  apply GetGroupByID_Ok in Hchild as [-> _].
  destruct (negb (HasExplored child)).
  - exact (ExploreGroup_body_logs _ _ IH _ _ _ Hbody).
  - injection Hbody as _ <-. apply logs_only_refl.
Qed.

(** Whatever [ExploreGroup] does to the memo, it does by applying rules
    of [logical_transformation_rules_] and recording what they yield: no
    other rule is applied, no cost is derived and none is registered. *)
Theorem ExploreGroup_applies_logical_rules_only (fuel : nat) (id : GroupID)
    (w : World) (u : unit) (w' : World) :
  ExploreGroup fuel id w = Ok (u, w') →
  ∃ evs, log w' = log w ++ evs ∧ Forall exploration_event evs.
Proof.
  apply ExploreGroup_body_logs. apply ExploreExpression_logs.
Qed.

Lemma ImplementGroup_logs fuel id w u w' :
  ImplementGroup fuel id w = Ok (u, w') → logs_only exploration_event w w'.
Proof.
  unfold ImplementGroup. intros Hrun.
  apply bind_Ok in Hrun as (group & w0 & Hg & Hrun).
  apply GetGroupByID_Ok in Hg as [-> _].
  apply bind_Ok in Hrun as (u1 & w1 & Hloop & Hrun).
  apply (logs_only_trans _ _ w1).
  - revert Hloop.
    apply (for_each_keeps _ (logs_only_refl _) (logs_only_trans _)).
    intros gexpr _ v u2 v' Hbody.
    apply bind_Ok in Hbody as (e & v0 & He & Hbody).
    apply deref_Ok in He as [-> _].
    destruct (IsPhysical (Op e)).
    + exact (ExploreExpression_logs _ _ _ _ _ Hbody).
    + injection Hbody as _ <-. apply logs_only_refl.
  - apply update_group_Ok in Hrun as (g & _ & ->).
    apply logs_only_same. reflexivity.
Qed.

(** [ImplementGroup] applies no physical-implementation rule on any
    input: every rule it applies is one of
    [logical_transformation_rules_]. *)
Theorem ImplementGroup_applies_logical_rules_only (fuel : nat)
    (id : GroupID) (w : World) (u : unit) (w' : World) :
  ImplementGroup fuel id w = Ok (u, w') →
  ∃ evs, log w' = log w ++ evs ∧ Forall exploration_event evs.
Proof. apply ImplementGroup_logs. Qed.

Lemma implementation_rules_loop gexpr (rules : list Rule) :
  ∀ w u w',
    for_each rules (λ rule, TransformExpression gexpr rule;; mret tt) w
      = Ok (u, w') →
    ∃ evs, log w' = log w ++ evs
           ∧ applied_rules evs = (λ rule, (gexpr, rule)) <$> rules.
Proof.
  induction rules as [|rule rules IH]; intros w u w' Hrun.
  - injection Hrun as _ <-. exists []. rewrite app_nil_r. auto.
  - simpl in Hrun. apply bind_Ok in Hrun as (u1 & w1 & Hbody & Hrun).
    apply bind_Ok in Hbody as (out & w0 & Htransform & Hbody).
    injection Hbody as _ <-.
    apply TransformExpression_log in Htransform as (calls & Hlog1).
    apply IH in Hrun as (evs & Hlog & Happlied).
    exists ((EvTransformExpression gexpr rule :: (record_event <$> calls))
            ++ evs).
    split.
    + rewrite Hlog, Hlog1, <- app_assoc. reflexivity.
    + rewrite applied_rules_app, applied_rules_transform,
        applied_rules_records, Happlied. reflexivity.
Qed.

(** [ImplementExpression] first applies to the expression every rule of
    [physical_implementation_rules_], once each and in the order of the
    list; what follows, in the child groups, applies
    logical-transformation rules only. *)
Theorem ImplementExpression_applies_physical_rules (fuel : nat)
    (gexpr : GExprPtr) (w : World) (u : unit) (w' : World) :
  ImplementExpression fuel gexpr w = Ok (u, w') →
  ∃ evs children_evs,
    log w' = log w ++ evs ++ children_evs
    ∧ applied_rules evs
      = (λ rule, (gexpr, rule)) <$> physical_implementation_rules_
    ∧ Forall exploration_event children_evs.
Proof.
  unfold ImplementExpression. intros Hrun.
  apply bind_Ok in Hrun as (u1 & w1 & Hrules & Hrun).
  apply implementation_rules_loop in Hrules as (evs & Hlog1 & Happlied).
  apply bind_Ok in Hrun as (e & w2 & He & Hrun).
  apply deref_Ok in He as [-> _].
  assert (logs_only exploration_event w1 w') as (evs2 & Hlog2 & Hall2).
  { revert Hrun.
    apply (for_each_keeps _ (logs_only_refl _) (logs_only_trans _)).
    intros child_id _ v u3 v' Hbody.
    apply bind_Ok in Hbody as (child & v1 & Hchild & Hbody).
    apply GetGroupByID_Ok in Hchild as [-> _].
    destruct (negb (HasImplemented child)).
    - exact (ImplementGroup_logs _ _ _ _ _ Hbody).
    - injection Hbody as _ <-. apply logs_only_refl. }
  exists evs, evs2. repeat split; try assumption.
  rewrite Hlog2, Hlog1, app_assoc. reflexivity.
Qed.

End RuleDiscipline.

(** ** What exploration can change in the state *)
Section StateInvariant.
Context `{Components}.
Variable I : State → Prop.
Hypothesis I_alloc :
  ∀ s e, I s → I {| groups := groups s;
                     gexprs := gexprs s ++ [e];
                     column_manager := column_manager s |}.
Hypothesis I_insert :
  ∀ s gexpr target, I s → I (fst (InsertExpression s gexpr target)).
Hypothesis I_explored :
  ∀ s id g, I s → groups s !! id = Some g →
    I {| groups := <[id := Group_SetExplorationFlag g]> (groups s);
         gexprs := gexprs s;
         column_manager := column_manager s |}.
Hypothesis I_implemented :
  ∀ s id g, I s → groups s !! id = Some g →
    I {| groups := <[id := Group_SetImplementationFlag g]> (groups s);
         gexprs := gexprs s;
         column_manager := column_manager s |}.

Lemma preserves_refl w : preserves I w w.
Proof. intros HI. exact HI. Qed.

Lemma preserves_trans w1 w2 w3 :
  preserves I w1 w2 → preserves I w2 w3 → preserves I w1 w3.
Proof. unfold preserves. auto. Qed.

Lemma make_shared_preserves e w gexpr w' :
  make_shared e w = Ok (gexpr, w') → preserves I w w'.
Proof.
  rewrite make_shared_run. intros [= _ <-] HI. simpl. apply I_alloc, HI.
Qed.

Lemma Memo_InsertExpression_preserves gexpr target w is_new w' :
  Memo_InsertExpression gexpr target w = Ok (is_new, w') → preserves I w w'.
Proof.
  intros Hrun HI. apply Memo_InsertExpression_Ok in Hrun as [_ Hins].
  pose proof (I_insert (st w) gexpr target HI) as HI'.
  rewrite Hins in HI'. exact HI'.
Qed.

Lemma MemoTransformedChildren_preserves expr w child_groups w' :
  Forall (λ c, ∀ w g w', MemoTransformedExpression c w = Ok (g, w') →
                         preserves I w w') (OpExpression_Children expr) →
  MemoTransformedChildren expr w = Ok (child_groups, w') → preserves I w w'.
Proof.
  intros Hcs. unfold MemoTransformedChildren.
  apply (for_fold_keeps _ preserves_refl preserves_trans).
  intros c Hc acc w0 acc' w0' Hrun.
  apply bind_Ok in Hrun as (g & w1 & Hg & Hrun).
  injection Hrun as _ <-.
  rewrite Forall_forall in Hcs. exact (Hcs c Hc _ _ _ Hg).
Qed.

Lemma MemoTransformedExpression_preserves expr :
  ∀ w g w', MemoTransformedExpression expr w = Ok (g, w') → preserves I w w'.
Proof.
  induction expr as [op children IH] using OpExpression_tree_ind.
  intros w g w' Hrun. rewrite MemoTransformedExpression_eq in Hrun.
  apply bind_Ok in Hrun as (gexpr & w1 & Hmake & Hrun).
  apply bind_Ok in Hmake as (child_groups & w0 & Hcs & Hmake).
  apply MemoTransformedChildren_preserves in Hcs; [|exact IH].
  apply make_shared_preserves in Hmake.
  apply bind_Ok in Hrun as (is_new & w2 & Hins & Hrun).
  apply Memo_InsertExpression_preserves in Hins.
  apply bind_Ok in Hrun as (e & w3 & He & Hrun).
  apply deref_Ok in He as [-> _]. injection Hrun as _ <-.
  unfold preserves in *. auto.
Qed.

Lemma RecordTransformedExpression_preserves expr target w result w' :
  RecordTransformedExpression expr target w = Ok (result, w') →
  preserves I w w'.
Proof.
  unfold RecordTransformedExpression. intros Hrun.
  apply bind_Ok in Hrun as (pre & w1 & Hpre & Hrun).
  apply get_state_Ok in Hpre as [_ ->].
  apply bind_Ok in Hrun as (p & w2 & Hmake & Hrun).
  apply bind_Ok in Hmake as (child_groups & w0 & Hcs & Hmake).
  apply MemoTransformedChildren_preserves in Hcs;
    [|apply Forall_forall; intros c _;
      apply MemoTransformedExpression_preserves].
  apply make_shared_preserves in Hmake.
  apply bind_Ok in Hrun as (handed & w2' & Hhanded & Hrun).
  apply get_state_Ok in Hhanded as [_ ->].
  apply bind_Ok in Hrun as (b & w3 & Hins & Hrun).
  apply Memo_InsertExpression_preserves in Hins.
  apply bind_Ok in Hrun as (u & w4 & Hemit & Hrun).
  apply emit_Ok in Hemit as [Hst _].
  injection Hrun as _ <-.
  unfold preserves in *. rewrite Hst. auto.
Qed.

Lemma TransformExpression_preserves gexpr rule w output_plans w' :
  TransformExpression gexpr rule w = Ok (output_plans, w') →
  preserves I w w'.
Proof.
  unfold TransformExpression. intros Hrun.
  apply bind_Ok in Hrun as (u & w0 & Hemit & Hrun).
  apply emit_Ok in Hemit as [Hst0 _].
  apply bind_Ok in Hrun as (s & w1 & Hs & Hrun).
  apply get_state_Ok in Hs as [_ ->].
  apply (preserves_trans _ w0); [unfold preserves; rewrite Hst0; auto|].
  revert Hrun.
  apply (for_fold_keeps _ preserves_refl preserves_trans).
  intros plan _ out v out' v' Hbody.
  destruct (Check rule plan).
  - revert Hbody.
    apply (for_fold_keeps _ preserves_refl preserves_trans).
    intros plan' _ out1 x out1' x' Hstep.
    apply bind_Ok in Hstep as (e & x0 & He & Hstep).
    apply deref_Ok in He as [-> _].
    apply bind_Ok in Hstep as ([p b] & x1 & Hrec & Hstep).
    apply RecordTransformedExpression_preserves in Hrec.
    destruct b; injection Hstep as _ <-; exact Hrec.
  - injection Hbody as _ <-. apply preserves_refl.
Qed.

Lemma update_group_explored_preserves id w u w' :
  update_group id Group_SetExplorationFlag w = Ok (u, w') →
  preserves I w w'.
Proof.
  intros Hrun HI. apply update_group_Ok in Hrun as (g & Hg & ->).
  simpl. apply I_explored; assumption.
Qed.

Lemma update_group_implemented_preserves id w u w' :
  update_group id Group_SetImplementationFlag w = Ok (u, w') →
  preserves I w w'.
Proof.
  intros Hrun HI. apply update_group_Ok in Hrun as (g & Hg & ->).
  simpl. apply I_implemented; assumption.
Qed.

Lemma ExploreGroup_body_preserves explore id :
  (∀ gexpr w u w', explore gexpr w = Ok (u, w') → preserves I w w') →
  ∀ w u w', ExploreGroup_body explore id w = Ok (u, w') → preserves I w w'.
Proof.
  intros Hexplore w u w' Hrun. unfold ExploreGroup_body in Hrun.
  apply bind_Ok in Hrun as (group & w0 & Hg & Hrun).
  apply GetGroupByID_Ok in Hg as [-> _].
  apply bind_Ok in Hrun as (u1 & w1 & Hloop & Hrun).
  apply (preserves_trans _ w1).
  - revert Hloop. apply (for_each_keeps _ preserves_refl preserves_trans).
    intros gexpr _. apply Hexplore.
  - exact (update_group_explored_preserves _ _ _ _ Hrun).
Qed.

Lemma ExploreExpression_preserves fuel :
  ∀ gexpr w u w', ExploreExpression fuel gexpr w = Ok (u, w') →
                  preserves I w w'.
Proof.
  induction fuel as [|fuel IH]; intros gexpr w u w' Hrun; [discriminate|].
  simpl in Hrun. unfold ExploreExpression_body in Hrun.
  apply bind_Ok in Hrun as (e & w0 & He & Hrun).
  apply deref_Ok in He as [-> _].
  apply bind_Ok in Hrun as (u0 & w1 & Hassert & Hrun).
  apply PL_ASSERT_Ok in Hassert as [_ ->].
  apply bind_Ok in Hrun as (u1 & w2 & Hrules & Hrun).
  apply (preserves_trans _ w2).
  { revert Hrules. apply (for_each_keeps _ preserves_refl preserves_trans).
    intros rule _ v u2 v' Hbody.
    apply bind_Ok in Hbody as (candidates & v1 & Htransform & Hbody).
    apply (preserves_trans _ v1).
    - exact (TransformExpression_preserves _ _ _ _ _ Htransform).
    - revert Hbody. apply (for_each_keeps _ preserves_refl preserves_trans).
      intros candidate _. apply IH. }
  apply bind_Ok in Hrun as (e' & w3 & He' & Hrun).
  apply deref_Ok in He' as [-> _].
  revert Hrun. apply (for_each_keeps _ preserves_refl preserves_trans).
  intros child_id _ v u3 v' Hbody.
  apply bind_Ok in Hbody as (child & v1 & Hchild & Hbody).
  apply GetGroupByID_Ok in Hchild as [-> _].
  destruct (negb (HasExplored child)).
  - exact (ExploreGroup_body_preserves _ _ IH _ _ _ Hbody).
  - injection Hbody as _ <-. apply preserves_refl.
Qed.

Lemma ExploreGroup_preserves fuel id w u w' :
  ExploreGroup fuel id w = Ok (u, w') → preserves I w w'.
Proof. apply ExploreGroup_body_preserves, ExploreExpression_preserves. Qed.

Lemma ImplementGroup_preserves fuel id w u w' :
  ImplementGroup fuel id w = Ok (u, w') → preserves I w w'.
Proof.
  unfold ImplementGroup. intros Hrun.
  apply bind_Ok in Hrun as (group & w0 & Hg & Hrun).
  apply GetGroupByID_Ok in Hg as [-> _].
  apply bind_Ok in Hrun as (u1 & w1 & Hloop & Hrun).
  apply (preserves_trans _ w1).
  - revert Hloop. apply (for_each_keeps _ preserves_refl preserves_trans).
    intros gexpr _ v u2 v' Hbody.
    apply bind_Ok in Hbody as (e & v0 & He & Hbody).
    apply deref_Ok in He as [-> _].
    destruct (IsPhysical (Op e)).
    + exact (ExploreExpression_preserves _ _ _ _ _ Hbody).
    + injection Hbody as _ <-. apply preserves_refl.
  - exact (update_group_implemented_preserves _ _ _ _ Hrun).
Qed.

(** [ExploreGroup] and [ImplementGroup] change the state in four ways
    only: they allocate group expressions, insert into the memo, and set
    the explored and the implemented flag of a group.  A property of the
    state that each of these keeps holds after a successful
    [ExploreGroup] followed by [ImplementGroup] if it held before. *)
Theorem exploration_frame (fuel : nat) (id : GroupID) (w : World)
    (u : unit) (w' : World) :
  (ExploreGroup fuel id;; ImplementGroup fuel id) w = Ok (u, w') →
  I (st w) → I (st w').
Proof.
  intros Hrun. apply bind_Ok in Hrun as (u1 & w1 & Hexplore & Himplement).
  apply ExploreGroup_preserves in Hexplore.
  apply ImplementGroup_preserves in Himplement.
  unfold preserves in *. auto.
Qed.

End StateInvariant.

(** ** Exploration meets logical expressions only *)
Section LogicalOnly.
Context `{Components}.
(** The memo's insert leaves a store of logical expressions one. *)
Hypothesis insert_logical :
  ∀ s gexpr target,
    logical_memo s → logical_memo (fst (InsertExpression s gexpr target)).
(** The bindings of an expression of a logical memo are logical trees. *)
Hypothesis bindings_logical :
  ∀ s gexpr pattern,
    logical_memo s →
    Forall (λ plan, all_logical plan = true) (ItemBindings s gexpr pattern).
(** A logical-transformation rule turns a logical tree into logical
    trees. *)
Hypothesis rules_logical :
  ∀ rule plan,
    rule ∈ logical_transformation_rules_ →
    all_logical plan = true →
    Forall (λ out, all_logical out = true) (Transform rule plan).
(** The converter turns a statement into a logical tree. *)
Hypothesis query_logical :
  ∀ cm tree, all_logical (fst (ConvertQueryToOpExpression cm tree)) = true.

Lemma asserts_hold_ret {A} (P : A → Prop) (a : A) :
  P a → asserts_hold P (mret a).
Proof.
  intros Ha w Hw. split; [discriminate|]. intros a' w' [= <- <-]. auto.
Qed.

Lemma asserts_hold_fail {A} (P : A → Prop) f :
  f ≠ AssertionFailed → asserts_hold P (fail f).
Proof.
  intros Hf w Hw. split; [|discriminate]. intros [= Heq]. exact (Hf Heq).
Qed.

Lemma asserts_hold_bind {A B} (P : A → Prop) (Q : B → Prop)
    (m : M A) (k : A → M B) :
  asserts_hold P m → (∀ a, P a → asserts_hold Q (k a)) →
  asserts_hold Q (m ≫= k).
Proof.
  intros Hm Hk w Hw. destruct (Hm w Hw) as [Hfail Hok].
  rewrite bind_unfold. destruct (m w) as [[a w1]|f].
  - destruct (Hok a w1 eq_refl) as [Hw1 Ha]. exact (Hk a Ha w1 Hw1).
  - split; [|discriminate]. intros [= ->]. apply Hfail. reflexivity.
Qed.

Lemma asserts_hold_ext {A} (P : A → Prop) (m m' : M A) :
  (∀ w, m w = m' w) → asserts_hold P m' → asserts_hold P m.
Proof. intros Heq Hm w Hw. rewrite Heq. exact (Hm w Hw). Qed.

Lemma asserts_hold_get_state : asserts_hold logical_memo get_state.
Proof.
  intros w Hw. split; [discriminate|]. intros s w' [= <- <-]. auto.
Qed.

Lemma asserts_hold_put_state s :
  logical_memo s → asserts_hold (λ _, True) (put_state s).
Proof.
  intros Hs w Hw. split; [discriminate|]. intros u w' [= _ <-]. auto.
Qed.

Lemma asserts_hold_emit ev : asserts_hold (λ _, True) (emit ev).
Proof.
  intros w Hw. split; [discriminate|]. intros u w' [= _ <-]. auto.
Qed.

Lemma asserts_hold_deref gexpr :
  asserts_hold (λ e, IsLogical (Op e) = true ∧ IsPhysical (Op e) = false)
    (deref gexpr).
Proof.
  intros w Hw. unfold deref. rewrite bind_unfold. simpl.
  destruct (gexprs (st w) !! gexpr) as [e|] eqn:He.
  - split; [discriminate|]. intros e' w' [= <- <-].
    split; [exact Hw | exact (Hw _ _ He)].
  - split; discriminate.
Qed.

Lemma asserts_hold_GetGroupByID id :
  asserts_hold (λ _, True) (GetGroupByID id).
Proof.
  intros w Hw. unfold GetGroupByID. rewrite bind_unfold. simpl.
  destruct (groups (st w) !! id) as [g|].
  - split; [discriminate|]. intros g' w' [= _ <-]. auto.
  - split; discriminate.
Qed.

Lemma asserts_hold_update_group id f :
  asserts_hold (λ _, True) (update_group id f).
Proof.
  apply (asserts_hold_bind (λ _, True)); [apply asserts_hold_GetGroupByID|].
  intros g _.
  apply (asserts_hold_bind logical_memo); [apply asserts_hold_get_state|].
  intros s Hs. apply asserts_hold_put_state. exact Hs.
Qed.

Lemma asserts_hold_for_each {A} (l : list A) (body : A → M unit) :
  (∀ x, x ∈ l → asserts_hold (λ _, True) (body x)) →
  asserts_hold (λ _, True) (for_each l body).
Proof.
  induction l as [|x l IH]; intros Hbody.
  - apply asserts_hold_ret. exact I.
  - simpl. apply (asserts_hold_bind (λ _, True)).
    + apply Hbody. left.
    + intros _ _. apply IH. intros y Hy. apply Hbody. right. exact Hy.
Qed.

Lemma asserts_hold_for_fold {A B} (l : list A) (body : B → A → M B) :
  (∀ x, x ∈ l → ∀ acc, asserts_hold (λ _, True) (body acc x)) →
  ∀ acc, asserts_hold (λ _, True) (for_fold l acc body).
Proof.
  induction l as [|x l IH]; intros Hbody acc.
  - apply asserts_hold_ret. exact I.
  - simpl. apply (asserts_hold_bind (λ _, True)).
    + apply Hbody. left.
    + intros acc' _. apply IH. intros y Hy. apply Hbody. right. exact Hy.
Qed.

Lemma asserts_hold_make_shared e :
  IsLogical (Op e) = true → IsPhysical (Op e) = false →
  asserts_hold (λ _, True) (make_shared e).
Proof.
  intros Hlogical Hphysical.
  apply (asserts_hold_bind logical_memo); [apply asserts_hold_get_state|].
  intros s Hs.
  apply (asserts_hold_bind (λ _, True)); [|intros; apply asserts_hold_ret; exact I].
  apply asserts_hold_put_state. intros p e'. simpl.
  intros Hp. apply lookup_app_Some in Hp as [Hp|[_ Hp]].
  - exact (Hs _ _ Hp).
  - apply list_lookup_singleton_Some in Hp as [_ <-]. auto.
Qed.

Lemma asserts_hold_Memo_InsertExpression gexpr target :
  asserts_hold (λ _, True) (Memo_InsertExpression gexpr target).
Proof.
  apply (asserts_hold_bind logical_memo); [apply asserts_hold_get_state|].
  intros s Hs. pose proof (insert_logical s gexpr target Hs) as Hs'.
  destruct (InsertExpression s gexpr target) as [s' is_new].
  apply (asserts_hold_bind (λ _, True)); [|intros; apply asserts_hold_ret; exact I].
  apply asserts_hold_put_state. exact Hs'.
Qed.

Lemma all_logical_inv op children :
  all_logical (OpExpr op children) = true →
  IsLogical op = true ∧ IsPhysical op = false
  ∧ ∀ child, child ∈ children → all_logical child = true.
Proof.
  intros Hall. cbn [all_logical] in Hall.
  apply andb_prop in Hall as [Hop Hchildren].
  apply andb_prop in Hop as [Hlogical Hphysical].
  apply negb_true_iff in Hphysical. split; [exact Hlogical|].
  split; [exact Hphysical|]. intros child Hchild.
  rewrite forallb_forall in Hchildren.
  apply Hchildren, list_elem_of_In, Hchild.
Qed.

Lemma asserts_hold_MakeGroupExpression expr :
  all_logical expr = true →
  (∀ child, child ∈ OpExpression_Children expr →
            asserts_hold (λ _, True) (MemoTransformedExpression child)) →
  asserts_hold (λ _, True) (MakeGroupExpression expr).
Proof.
  intros Hall Hchildren. destruct expr as [op children].
  apply all_logical_inv in Hall as (Hlogical & Hphysical & _).
  apply (asserts_hold_bind (λ _, True)).
  - apply asserts_hold_for_fold. intros child Hchild acc.
    apply (asserts_hold_bind (λ _, True)); [exact (Hchildren child Hchild)|].
    intros; apply asserts_hold_ret; exact I.
  - intros child_groups _. apply asserts_hold_make_shared; assumption.
Qed.

Lemma asserts_hold_MemoTransformedExpression expr :
  all_logical expr = true →
  asserts_hold (λ _, True) (MemoTransformedExpression expr).
Proof.
  induction expr as [op children IH] using OpExpression_tree_ind.
  intros Hall.
  apply (asserts_hold_ext _ _ _ (MemoTransformedExpression_eq _)).
  apply (asserts_hold_bind (λ _, True)).
  - apply asserts_hold_MakeGroupExpression; [exact Hall|].
    intros child Hchild. rewrite Forall_forall in IH.
    apply (IH child Hchild).
    apply all_logical_inv in Hall as (_ & _ & Hall). exact (Hall child Hchild).
  - intros gexpr _.
    apply (asserts_hold_bind (λ _, True));
      [apply asserts_hold_Memo_InsertExpression|].
    intros _ _.
    apply (asserts_hold_bind _ _ _ _ (asserts_hold_deref gexpr)).
    intros; apply asserts_hold_ret; exact I.
Qed.

Lemma asserts_hold_RecordTransformedExpression expr target :
  all_logical expr = true →
  asserts_hold (λ _, True) (RecordTransformedExpression expr target).
Proof.
  intros Hall.
  apply (asserts_hold_bind logical_memo); [apply asserts_hold_get_state|].
  intros pre _.
  apply (asserts_hold_bind (λ _, True)).
  { apply asserts_hold_MakeGroupExpression; [exact Hall|].
    intros child Hchild. apply asserts_hold_MemoTransformedExpression.
    destruct expr as [op children].
    apply all_logical_inv in Hall as (_ & _ & Hall). exact (Hall child Hchild). }
  intros gexpr _.
  apply (asserts_hold_bind logical_memo); [apply asserts_hold_get_state|].
  intros handed _.
  apply (asserts_hold_bind (λ _, True));
    [apply asserts_hold_Memo_InsertExpression|].
  intros is_new _.
  apply (asserts_hold_bind (λ _, True)); [apply asserts_hold_emit|].
  intros; apply asserts_hold_ret; exact I.
Qed.

Lemma asserts_hold_TransformExpression gexpr rule :
  rule ∈ logical_transformation_rules_ →
  asserts_hold (λ _, True) (TransformExpression gexpr rule).
Proof.
  intros Hrule.
  apply (asserts_hold_bind (λ _, True)); [apply asserts_hold_emit|].
  intros _ _.
  apply (asserts_hold_bind logical_memo); [apply asserts_hold_get_state|].
  intros s Hs.
  pose proof (bindings_logical s gexpr (GetMatchPattern rule) Hs) as Hbindings.
  rewrite Forall_forall in Hbindings.
  apply asserts_hold_for_fold. intros plan Hplan output_plans.
  destruct (Check rule plan); [|apply asserts_hold_ret; exact I].
  pose proof (rules_logical rule plan Hrule (Hbindings plan Hplan)) as Hplans.
  rewrite Forall_forall in Hplans.
  apply asserts_hold_for_fold. intros out Hout output_plans'.
  apply (asserts_hold_bind _ _ _ _ (asserts_hold_deref gexpr)).
  intros e _.
  apply (asserts_hold_bind (λ _, True)).
  - apply asserts_hold_RecordTransformedExpression. exact (Hplans out Hout).
  - intros [new_gexpr new_expression] _.
    destruct new_expression; apply asserts_hold_ret; exact I.
Qed.

Lemma asserts_hold_ExploreGroup_body explore id :
  (∀ gexpr, asserts_hold (λ _, True) (explore gexpr)) →
  asserts_hold (λ _, True) (ExploreGroup_body explore id).
Proof.
  intros Hexplore.
  apply (asserts_hold_bind (λ _, True)); [apply asserts_hold_GetGroupByID|].
  intros group _.
  apply (asserts_hold_bind (λ _, True)).
  - apply asserts_hold_for_each. intros gexpr _. apply Hexplore.
  - intros _ _. apply asserts_hold_update_group.
Qed.

Lemma asserts_hold_ExploreExpression fuel :
  ∀ gexpr, asserts_hold (λ _, True) (ExploreExpression fuel gexpr).
Proof.
  induction fuel as [|fuel IH]; intros gexpr.
  - apply asserts_hold_fail. discriminate.
  - simpl. unfold ExploreExpression_body.
    apply (asserts_hold_bind _ _ _ _ (asserts_hold_deref gexpr)).
    intros e [Hlogical _]. rewrite Hlogical.
    apply (asserts_hold_bind (λ _, True)); [apply asserts_hold_ret; exact I|].
    intros _ _.
    apply (asserts_hold_bind (λ _, True)).
    { apply asserts_hold_for_each. intros rule Hrule.
      apply (asserts_hold_bind (λ _, True)).
      - apply asserts_hold_TransformExpression. exact Hrule.
      - intros candidates _. apply asserts_hold_for_each.
        intros candidate _. apply IH. }
    intros _ _.
    apply (asserts_hold_bind _ _ _ _ (asserts_hold_deref gexpr)).
    intros e' _. apply asserts_hold_for_each. intros child_id _.
    apply (asserts_hold_bind (λ _, True)); [apply asserts_hold_GetGroupByID|].
    intros child _. destruct (negb (HasExplored child)).
    + apply asserts_hold_ExploreGroup_body. exact IH.
    + apply asserts_hold_ret. exact I.
Qed.

Lemma asserts_hold_ImplementGroup fuel id :
  asserts_hold (λ _, True) (ImplementGroup fuel id).
Proof.
  apply (asserts_hold_bind (λ _, True)); [apply asserts_hold_GetGroupByID|].
  intros group _.
  apply (asserts_hold_bind (λ _, True)).
  - apply asserts_hold_for_each. intros gexpr _.
    apply (asserts_hold_bind _ _ _ _ (asserts_hold_deref gexpr)).
    intros e [_ Hphysical]. rewrite Hphysical.
    apply asserts_hold_ret. exact I.
  - intros _ _. apply asserts_hold_update_group.
Qed.

(** The assertion is the first thing a call of [ExploreExpression] does
    with its expression: a call on an expression that is not logical
    fails it at once, so a run in which it never fails has called
    [ExploreExpression] on logical expressions only. *)
Lemma ExploreExpression_asserts_logical fuel gexpr e w :
  gexprs (st w) !! gexpr = Some e →
  IsLogical (Op e) = false →
  ExploreExpression (S fuel) gexpr w = Err AssertionFailed.
Proof.
  intros He Hlogical. simpl. unfold ExploreExpression_body.
  rewrite (bind_Ok_l _ _ _ _ _ (deref_Some _ _ _ He)).
  rewrite Hlogical. reflexivity.
Qed.

Lemma InsertQueryTree_keeps_logical tree w gexpr w' :
  logical_memo (st w) →
  InsertQueryTree tree w = Ok (gexpr, w') → logical_memo (st w').
Proof.
  unfold InsertQueryTree. intros Hw Hinsert.
  apply bind_Ok in Hinsert as (s & v0 & Hs & Hinsert).
  apply get_state_Ok in Hs as [-> ->].
  pose proof (query_logical (column_manager (st w)) tree) as Hquery.
  destruct (ConvertQueryToOpExpression (column_manager (st w)) tree)
    as [initial cm].
  apply bind_Ok in Hinsert as (u & v1 & Hput & Hinsert).
  apply put_state_Ok in Hput as [Hst _].
  apply bind_Ok in Hinsert as ([p b] & v2 & Hrec & Hinsert).
  apply bind_Ok in Hinsert as (u' & v3 & Hassert & Hinsert).
  apply PL_ASSERT_Ok in Hassert as [_ ->].
  injection Hinsert as _ <-.
  refine (proj1 (proj2 (asserts_hold_RecordTransformedExpression
                          initial UNDEFINED_GROUP Hquery v1 _) _ _ Hrec)).
  rewrite Hst. exact Hw.
Qed.


End LogicalOnly.

(** ** The driver as a whole *)
Section NeverPlans.
Context `{Components}.
(** The memo's insert creates no best-expression binding. *)
Hypothesis insert_no_bindings :
  ∀ s gexpr target,
    no_bindings s → no_bindings (fst (InsertExpression s gexpr target)).

Lemma no_bindings_alloc s e :
  no_bindings s →
  no_bindings {| groups := groups s;
                 gexprs := gexprs s ++ [e];
                 column_manager := column_manager s |}.
Proof. intros Hs. exact Hs. Qed.

Lemma no_bindings_flag (f : Group → Group) :
  (∀ g, lowest_cost_expressions (f g) = lowest_cost_expressions g) →
  ∀ s id g,
    no_bindings s → groups s !! id = Some g →
    no_bindings {| groups := <[id := f g]> (groups s);
                   gexprs := gexprs s;
                   column_manager := column_manager s |}.
Proof.
  intros Hf s id g Hs Hg id' g'. simpl. rewrite lookup_insert.
  destruct (decide (id = id')) as [<-|_].
  - intros [= <-]. rewrite Hf. exact (Hs _ _ Hg).
  - apply Hs.
Qed.

Lemma ChooseBestPlan_needs_binding fuel id requirements w plan w' :
  ChooseBestPlan fuel id requirements w = Ok (plan, w') →
  ∃ g gexpr, groups (st w) !! id = Some g
             ∧ GetBestExpression g requirements = Some gexpr.
Proof.
  destruct fuel as [|fuel]; [discriminate|]. simpl. intros Hrun.
  apply bind_Ok in Hrun as (g & w0 & Hg & Hrun).
  apply GetGroupByID_Ok in Hg as [-> Hg].
  apply bind_Ok in Hrun as (e & w1 & He & _).
  destruct (GetBestExpression g requirements) as [gexpr|] eqn:Hbest;
    [eauto | discriminate].
Qed.

Lemma OptimizeExpression_same_world fuel gexpr requirements w u w' :
  OptimizeExpression fuel gexpr requirements w = Ok (u, w') → w' = w.
Proof.
  destruct fuel as [|fuel]; [discriminate|].
  rewrite OptimizeExpression_run.
  destruct (gexprs (st w) !! gexpr) as [e|]; [|discriminate].
  destruct (IsPhysical (Op e)); [|discriminate].
  intros [= _ <-]. reflexivity.
Qed.

Lemma InsertQueryTree_keeps_no_bindings tree w gexpr w' :
  InsertQueryTree tree w = Ok (gexpr, w') →
  no_bindings (st w) → no_bindings (st w').
Proof.
  unfold InsertQueryTree. intros Hinsert Hw.
  apply bind_Ok in Hinsert as (s & v0 & Hs & Hinsert).
  apply get_state_Ok in Hs as [-> ->].
  destruct (ConvertQueryToOpExpression (column_manager (st w)) tree)
    as [initial cm].
  apply bind_Ok in Hinsert as (u & v1 & Hput & Hinsert).
  apply put_state_Ok in Hput as [Hst _].
  apply bind_Ok in Hinsert as ([p b] & v2 & Hrec & Hinsert).
  apply (RecordTransformedExpression_preserves no_bindings
           no_bindings_alloc insert_no_bindings) in Hrec.
  apply bind_Ok in Hinsert as (u' & v3 & Hassert & Hinsert).
  apply PL_ASSERT_Ok in Hassert as [_ ->].
  injection Hinsert as _ <-.
  apply Hrec. rewrite Hst. exact Hw.
Qed.

(** On a memo without best-expression bindings, [BuildPelotonPlanTree]
    returns no plan for any non-empty statement list: nothing it calls
    registers a best expression, so no call returns a result, whatever
    the statement and the call depth allowed. *)
Theorem BuildPelotonPlanTree_never_plans (fuel : nat)
    (parse_tree : SQLStatement) (rest : list SQLStatement) (w : World) :
  no_bindings (st w) →
  ∃ f, BuildPelotonPlanTree fuel (parse_tree :: rest) w = Err f.
Proof.
  intros Hw.
  destruct (BuildPelotonPlanTree fuel (parse_tree :: rest) w)
    as [[result w']|f] eqn:Hrun; [exfalso | eauto].
  simpl in Hrun.
  apply bind_Ok in Hrun as (gexpr & w1 & Hinsert & Hrun).
  assert (no_bindings (st w1)) as Hw1.
  { unfold InsertQueryTree in Hinsert.
    apply bind_Ok in Hinsert as (s & v0 & Hs & Hinsert).
    apply get_state_Ok in Hs as [-> ->].
    destruct (ConvertQueryToOpExpression (column_manager (st w)) parse_tree)
      as [initial cm].
    apply bind_Ok in Hinsert as (u & v1 & Hput & Hinsert).
    apply put_state_Ok in Hput as [Hst _].
    apply bind_Ok in Hinsert as ([p b] & v2 & Hrec & Hinsert).
    apply (RecordTransformedExpression_preserves no_bindings
             no_bindings_alloc insert_no_bindings) in Hrec.
    apply bind_Ok in Hinsert as (u' & v3 & Hassert & Hinsert).
    apply PL_ASSERT_Ok in Hassert as [_ ->].
    injection Hinsert as _ <-.
    apply Hrec. rewrite Hst. exact Hw. }
  apply bind_Ok in Hrun as (e & w2 & He & Hrun).
  apply deref_Ok in He as [-> _].
  apply bind_Ok in Hrun as (properties & w3 & Hprops & Hrun).
  assert (no_bindings (st w3)) as Hw3.
  { unfold GetQueryTreeRequiredProperties in Hprops.
    apply bind_Ok in Hprops as (s & v0 & Hs & Hprops).
    apply get_state_Ok in Hs as [-> ->].
    destruct (GetProperties (column_manager (st w1)) parse_tree)
      as [properties' cm].
    apply bind_Ok in Hprops as (u & v1 & Hput & Hprops).
    apply put_state_Ok in Hput as [Hst _].
    injection Hprops as _ <-. rewrite Hst. exact Hw1. }
  apply bind_Ok in Hrun as (u4 & w4 & Hexplore & Hrun).
  apply (ExploreGroup_preserves no_bindings no_bindings_alloc
           insert_no_bindings
           (no_bindings_flag Group_SetExplorationFlag (λ _, eq_refl)))
    in Hexplore.
  apply bind_Ok in Hrun as (u5 & w5 & Himplement & Hrun).
  apply (ImplementGroup_preserves no_bindings no_bindings_alloc
           insert_no_bindings
           (no_bindings_flag Group_SetExplorationFlag (λ _, eq_refl))
           (no_bindings_flag Group_SetImplementationFlag (λ _, eq_refl)))
    in Himplement.
  apply bind_Ok in Hrun as (u6 & w6 & Hoptimize & Hrun).
  apply OptimizeExpression_same_world in Hoptimize as ->.
  apply bind_Ok in Hrun as (best_plan & w7 & Hchoose & _).
  apply ChooseBestPlan_needs_binding in Hchoose as (g & p & Hg & Hbest).
  pose proof (Himplement (Hexplore Hw3) _ _ Hg) as Hnone.
  unfold GetBestExpression in Hbest. rewrite Hnone in Hbest.
  discriminate.
Qed.

End NeverPlans.

(** ** The helpers of the bloom filter test *)
Section BloomFilterHelpers.
Import BloomFilterCodegenTest.

Lemma INT_MAX_value : INT_MAX = 2147483647.
Proof. reflexivity. Qed.

Lemma INT_MIN_value : INT_MIN = -2147483648.
Proof. reflexivity. Qed.

Lemma in_int_true z : INT_MIN ≤ z ≤ INT_MAX → in_int z = true.
Proof.
  intros Hz. unfold in_int. apply andb_true_iff.
  split; apply Z.leb_le; lia.
Qed.

Lemma ceiling_quotient (t b : Z) :
  0 < b → b * ((t + b - 1) / b - 1) < t ≤ b * ((t + b - 1) / b).
Proof.
  intros Hb.
  pose proof (Z.div_mod (t + b - 1) b ltac:(lia)) as Hdiv.
  pose proof (Z.mod_pos_bound (t + b - 1) b Hb) as Hmod.
  lia.
Qed.

Lemma UpDivide_quotient (num1 num2 : Z) :
  0 ≤ num1 → 0 < num2 → num1 + num2 ≤ INT_MAX →
  UpDivide num1 num2 = Some ((num1 + num2 - 1) / num2)
  ∧ num2 * ((num1 + num2 - 1) / num2 - 1) < num1
      ≤ num2 * ((num1 + num2 - 1) / num2).
Proof.
  intros H1 H2 Hmax.
  split; [|apply ceiling_quotient, H2].
  pose proof (ceiling_quotient num1 num2 H2) as Hq.
  pose proof INT_MIN_value as Hmin.
  assert (0 ≤ (num1 + num2 - 1) / num2 ≤ num1 + num2 - 1) as Hrange.
  { split; [apply Z.div_pos; lia|]. apply Z.div_le_upper_bound; nia. }
  unfold UpDivide, int_add, int_sub, int_div.
  rewrite (in_int_true (num1 + num2)) by lia. simpl.
  rewrite (in_int_true (num1 + num2 - 1)) by lia. simpl.
  destruct (Z.eqb_spec num2 0) as [->|_]; [lia|].
  rewrite Z.quot_div_nonneg by lia.
  rewrite in_int_true by lia. reflexivity.
Qed.

(** For a non-negative [num1] and a positive [num2] whose sum fits an
    [int], [UpDivide] is defined and returns the quotient rounded up: the
    least [q] with [num1 <= num2 * q]. *)
Theorem UpDivide_rounds_up (num1 num2 : Z) :
  0 ≤ num1 → 0 < num2 → num1 + num2 ≤ INT_MAX →
  ∃ q, UpDivide num1 num2 = Some q
       ∧ num2 * (q - 1) < num1 ≤ num2 * q.
Proof.
  intros H1 H2 Hmax. eexists. apply UpDivide_quotient; assumption.
Qed.

Lemma CreateTable_loop_run (b t : Z) (n : nat) :
  0 < b → t + b ≤ INT_MAX →
  b * (Z.of_nat n - 1) < t ≤ b * Z.of_nat n →
  ∀ m k fuel cols,
    (k + m = n)%nat → (m < fuel)%nat →
    CreateTable_loop fuel b t (Z.of_nat k * b) cols
    = Some (cols ++ (bigint_column b <$> seq k m)).
Proof.
  intros Hb Hmax Hn. rewrite INT_MAX_value in Hmax.
  induction m as [|m IH]; intros k fuel cols Hk Hfuel;
    (destruct fuel as [|fuel]; [lia|]); simpl.
  - assert (k = n) as -> by lia.
    destruct (Z.ltb_spec (Z.of_nat n * b) t) as [Hlt|_]; [lia|].
    rewrite app_nil_r. reflexivity.
  - assert (Z.of_nat k * b < t) as Hlt by nia.
    assert (0 ≤ Z.of_nat k * b) as Hnonneg by nia.
    destruct (Z.ltb_spec (Z.of_nat k * b) t) as [_|Hge]; [|lia].
    destruct (Z.eqb_spec b 0) as [->|_]; [lia|].
    unfold to_size_t, to_int.
    change (2 ^ 64) with 18446744073709551616.
    change (2 ^ 31) with 2147483648.
    change (2 ^ 32) with 4294967296.
    rewrite (Z.mod_small (Z.of_nat k * b)) by lia.
    rewrite (Z.mod_small (Z.of_nat k * b + b)) by lia.
    rewrite (Z.mod_small (Z.of_nat k * b + b + 2147483648)) by lia.
    rewrite Z.div_mul by lia.
    replace (Z.of_nat k * b + b + 2147483648 - 2147483648)
      with (Z.of_nat (S k) * b) by lia.
    rewrite IH by lia.
    rewrite <- app_assoc. unfold bigint_column at 2.
    rewrite <- nat_N_Z, N2Z.id. reflexivity.
Qed.

(** For a positive [bigint_size] and a non-negative [tuple_size] whose sum
    fits an [int], the loop of [CreateTable] ends and the schema has
    [UpDivide(tuple_size, bigint_size)] columns, named [c0], [c1], ... in
    order, all [BIGINT] of length [bigint_size] and inlined: one column
    for each value of the vectors the test builds with [UpDivide]. *)
Theorem CreateTable_columns (bigint_size tuple_size : Z) :
  0 < bigint_size → 0 ≤ tuple_size →
  tuple_size + bigint_size ≤ INT_MAX →
  ∃ n : nat,
    UpDivide tuple_size bigint_size = Some (Z.of_nat n)
    ∧ ∀ fuel, (n < fuel)%nat →
        CreateTable fuel bigint_size tuple_size
        = Some (bigint_column bigint_size <$> seq 0 n).
Proof.
  intros Hb Ht Hmax.
  destruct (UpDivide_quotient tuple_size bigint_size Ht Hb Hmax)
    as [Hup Hq].
  pose proof (ceiling_quotient tuple_size bigint_size Hb) as Hceil.
  assert (0 ≤ (tuple_size + bigint_size - 1) / bigint_size) as Hpos
    by (apply Z.div_pos; lia).
  exists (Z.to_nat ((tuple_size + bigint_size - 1) / bigint_size)).
  rewrite Z2Nat.id by exact Hpos. split; [exact Hup|].
  intros fuel Hfuel. unfold CreateTable.
  rewrite (CreateTable_loop_run bigint_size tuple_size
             (Z.to_nat ((tuple_size + bigint_size - 1) / bigint_size))
             Hb Hmax) with (k := 0%nat)
                           (m := Z.to_nat ((tuple_size + bigint_size - 1)
                                           / bigint_size));
    [reflexivity| |reflexivity|exact Hfuel].
  rewrite Z2Nat.id by exact Hpos. exact Hceil.
Qed.

End BloomFilterHelpers.

Section Witnesses.
Import Scenario.

(** C8 (as stated) fails: with the token tripped, each of the three
    functions runs to its ordinary result; so they do in the state the
    driver calls them in, after the ingestion of a one-table query. *)
Lemma driver_ignores_cancellation :
  ¬ answers_Cancelled (with_token (ExploreExpression 1 0%nat)) scan_world
  ∧ ¬ answers_Cancelled
        (with_token (OptimizeExpression 1 1%nat no_requirements))
        implemented_world
  ∧ ¬ answers_Cancelled
        (with_token (ChooseBestPlan 2 2 no_requirements)) extractable_world
  ∧ ¬ answers_Cancelled
        (with_token (OptimizeExpression 1 0%nat no_requirements)) scan_world
  ∧ ¬ answers_Cancelled
        (with_token (ChooseBestPlan 1 0 no_requirements)) scan_world.
Proof. repeat split; vm_compute; discriminate. Qed.

Lemma driver_runs_with_token_tripped :
  (∃ w, with_token (ExploreExpression 1 0%nat) true scan_world = Ok (tt, w))
  ∧ with_token (OptimizeExpression 1 1%nat no_requirements) true
      implemented_world = Ok (tt, implemented_world)
  ∧ with_token (ChooseBestPlan 2 2 no_requirements) true extractable_world
    = Ok (OpExpr PhysicalSortedJoin
            [OpExpr (PhysicalScan 1) []; OpExpr (PhysicalScan 2) []],
          extractable_world).
Proof. repeat split; [eexists|..]; vm_compute; reflexivity. Qed.

Lemma ChooseBestPlan_children_witness :
  ChooseBestPlan 2 2 no_requirements extractable_world
  = extract_under (ChooseBestPlan 1) join_expression
      (if bool_decide (RequiredInputProperties (Op join_expression) = [])
       then replicate (length (GetChildGroupIDs join_expression))
              PropertySet_default
       else RequiredInputProperties (Op join_expression)) extractable_world.
Proof.
  apply (ChooseBestPlan_children 1 2 no_requirements extractable_world
           join_group 2%nat join_expression).
  - vm_compute. reflexivity.
  - vm_compute. reflexivity.
  - vm_compute. reflexivity.
  - right. vm_compute. lia.
Defined.

(** An operator that gives no list: the children of the nested-loop
    join are extracted under the default property set. *)
Lemma ChooseBestPlan_extracts_loop_join :
  RequiredInputProperties loop_join = []
  ∧ best_binding loop_join_world 0 PropertySet_default = Some (1, 0%nat)
  ∧ best_binding loop_join_world 1 PropertySet_default = Some (1, 1%nat)
  ∧ ChooseBestPlan 2 2 no_requirements loop_join_world
    = Ok (loop_join_plan, loop_join_world).
Proof. vm_compute. auto. Qed.

(** In that world the extraction yields the join over the two scans. *)
Lemma ChooseBestPlan_extracts_join :
  ChooseBestPlan 2 2 no_requirements extractable_world
  = Ok (OpExpr PhysicalSortedJoin
          [OpExpr (PhysicalScan 1) []; OpExpr (PhysicalScan 2) []],
        extractable_world).
Proof. vm_compute. reflexivity. Qed.

Lemma OptimizeExpression_registers_nothing_witness :
  DeriveChildProperties
    (expression (PhysicalScan 1) [] 0 []) no_requirements = []
  ∧ OptimizeExpression 1 1%nat no_requirements implemented_world
    = Ok (tt, implemented_world).
Proof.
  apply (OptimizeExpression_registers_nothing 0 1%nat no_requirements implemented_world);
    vm_compute; reflexivity.
Defined.

Lemma ChooseBestPlan_null_dereference_witness :
  ChooseBestPlan 1 0 no_requirements scan_world = Err NullDereference
  ∧ ChooseBestPlan 1 0 no_requirements scan_world ≠ Err NoPlan.
Proof.
  apply (ChooseBestPlan_null_dereference 0 0 no_requirements scan_world scan_group);
    vm_compute; reflexivity.
Defined.

Lemma ImplementGroup_applies_no_rule_witness :
  ImplementGroup 3 0 scan_world
    = Ok (tt, with_group scan_world 0 (Group_SetImplementationFlag scan_group)).
Proof.
  apply (ImplementGroup_applies_no_rule 3 0 scan_world scan_group).
  - vm_compute; reflexivity.
  - apply Forall_cons. split; [|constructor].
    exists (expression (LogicalGet 1) [] 0 []). split; vm_compute; reflexivity.
Defined.

(** The rule [GetToScan] does match the expression that [ImplementGroup]
    passed over: applied by [ImplementExpression], it records the
    physical scan in the group. *)
Lemma ImplementExpression_applies_GetToScan :
  groups (st (after (ImplementGroup 3 0) scan_world)) !! 0
    = Some (Group_SetImplementationFlag scan_group)
  ∧ groups (st (after (ImplementExpression 3 0%nat) scan_world)) !! 0
    = Some implemented_group
  ∧ Op <$> gexprs (st (after (ImplementExpression 3 0%nat) scan_world))
    = [LogicalGet 1; PhysicalScan 1].
Proof. vm_compute. auto. Qed.

(** The driver on a one-table query: exploration and implementation
    leave the logical root alone, and [OptimizeExpression] is then handed
    that logical root. *)
Lemma BuildPelotonPlanTree_one_table :
  BuildPelotonPlanTree 5 [Select 1] fresh = Err AssertionFailed
  ∧ (InsertQueryTree (Select 1);;
     ExploreGroup 5 0;; ImplementGroup 5 0;;
     ChooseBestPlan 5 0 no_requirements) fresh = Err NullDereference.
Proof. split; vm_compute; reflexivity. Qed.

Lemma ImplementGroup_explores_physical_witness :
  ImplementGroup 1 0 implemented_world = Err AssertionFailed.
Proof.
  apply (ImplementGroup_explores_physical 0 0 implemented_world
           implemented_group [0%nat] 1%nat []
           (expression (PhysicalScan 1) [] 0 [])); try (vm_compute; reflexivity).
  apply Forall_cons. split; [|constructor].
  exists (expression (LogicalGet 1) [] 0 []). split; vm_compute; reflexivity.
Defined.

Lemma TransformExpression_records_witness :
  ∃ calls : list RecordCall,
    log (after (TransformExpression 0%nat GetToScan) scan_world)
    = log scan_world ++ EvTransformExpression 0%nat GetToScan
                          :: (record_event <$> calls)
    ∧ call_expr <$> calls
      = transformed_plans GetToScan
          (ItemBindings (st scan_world) 0%nat (GetMatchPattern GetToScan))
    ∧ Forall (targets_group_of 0%nat) calls
    ∧ [1%nat] = new_expressions calls
    ∧ records_into_memo
        {| st := st scan_world;
           log := log scan_world ++ [EvTransformExpression 0%nat GetToScan] |}
        calls (after (TransformExpression 0%nat GetToScan) scan_world).
Proof.
  apply (TransformExpression_records 0%nat GetToScan scan_world [1%nat]
           (after (TransformExpression 0%nat GetToScan) scan_world)).
  vm_compute. reflexivity.
Defined.

(** Applied a second time, the rule yields the same physical scan; the
    memo reports it as known and nothing is returned. *)
Lemma TransformExpression_returns_new_only :
  (∃ w, TransformExpression 0%nat GetToScan scan_world = Ok ([1%nat], w))
  ∧ (∃ w, TransformExpression 0%nat GetToScan implemented_world = Ok ([], w)).
Proof. split; eexists; vm_compute; reflexivity. Qed.

Lemma OptimizeExpression_registers_subsuming_witness :
  ∃ evs,
    log optimized_world = log join_world ++ evs
    ∧ Forall (registered_under modes) evs
    ∧ (∀ id R,
         improves (best_binding join_world id R)
                  (best_binding optimized_world id R))
    ∧ (∀ id R,
         best_binding optimized_world id R = best_binding join_world id R
         ∨ ∃ pre cost p,
             best_binding optimized_world id R = Some (cost, p)
             ∧ EvSetExpressionCost pre id p cost R ∈ evs).
Proof.
  refine (OptimizeExpression_registers_subsuming modes _ 3 2%nat
            no_requirements join_world optimized_world _).
  - intros a b c Hab Hbc. simpl in *.
    apply Z.ltb_lt in Hab. apply Z.ltb_lt in Hbc. apply Z.ltb_lt. lia.
  - vm_compute. reflexivity.
Defined.

(** In that run the join was registered for group 2, and the scans for
    groups 0 and 1 under the requirement the join put on them. *)
Lemma optimized_world_bindings :
  best_binding optimized_world 2 no_requirements = Some (6, 2%nat)
  ∧ best_binding optimized_world 0 (sorted_on 7) = Some (2, 0%nat)
  ∧ best_binding optimized_world 1 (sorted_on 7) = Some (2, 1%nat)
  ∧ best_binding optimized_world 0 no_requirements = None.
Proof. vm_compute. auto. Qed.

End Witnesses.

(** ** The further properties at work on the small catalogue *)
Section MoreWitnesses.
Import Scenario.

Lemma ChooseBestPlan_read_only_witness :
  extractable_world = extractable_world.
Proof.
  apply (ChooseBestPlan_read_only 2 2 no_requirements extractable_world
           join_plan extractable_world).
  vm_compute. reflexivity.
Defined.

Lemma ChooseBestPlan_plan_shape_witness :
  ∃ g gexpr e,
    groups (st extractable_world) !! 2 = Some g
    ∧ GetBestExpression g no_requirements = Some gexpr
    ∧ gexprs (st extractable_world) !! gexpr = Some e
    ∧ OpExpression_Op join_plan = Op e
    ∧ length (OpExpression_Children join_plan)
      = length (GetChildGroupIDs e)
    ∧ (length (GetChildGroupIDs e)
       ≤ length (required_input_props_of e))%nat.
Proof.
  apply (ChooseBestPlan_plan_shape 2 2 no_requirements extractable_world
           join_plan extractable_world).
  vm_compute. reflexivity.
Defined.

Lemma OptimizeExpression_asserts_physical_witness :
  OptimizeExpression 1 0%nat no_requirements scan_world = Err AssertionFailed.
Proof.
  apply (OptimizeExpression_asserts_physical 0 0%nat no_requirements
           scan_world (expression (LogicalGet 1) [] 0 []));
    vm_compute; reflexivity.
Defined.

Lemma OptimizeGroup_registers_nothing_witness :
  OptimizeGroup 1 0 no_requirements implemented_world
  = Ok (tt, implemented_world).
Proof.
  apply (OptimizeGroup_registers_nothing 0 0 no_requirements
           implemented_world implemented_group).
  - vm_compute. reflexivity.
  - repeat (apply Forall_cons; split); [| |constructor];
      eexists; vm_compute; reflexivity.
Defined.

Lemma MakeGroupExpression_fresh_witness :
  ∃ child_groups,
    length child_groups = length (OpExpression_Children logical_join)
    ∧ gexprs (st (after (MakeGroupExpression logical_join) fresh)) !! 2%nat
      = Some {| Op := OpExpression_Op logical_join;
                GetChildGroupIDs := child_groups;
                GetGroupID := UNDEFINED_GROUP;
                cost_table := CostTable_empty |}
    ∧ length (gexprs (st (after (MakeGroupExpression logical_join) fresh)))
      = 3%nat
    ∧ log (after (MakeGroupExpression logical_join) fresh) = log fresh.
Proof.
  apply (MakeGroupExpression_fresh logical_join fresh 2%nat
           (after (MakeGroupExpression logical_join) fresh)).
  vm_compute. reflexivity.
Defined.

Lemma InsertQueryTree_records_new_witness :
  ∃ handed,
    log scan_world
    = log fresh
      ++ [EvRecord
            {| groups := groups (st fresh);
               gexprs := gexprs (st fresh);
               column_manager :=
                 snd (ConvertQueryToOpExpression (column_manager (st fresh))
                        one_table) |}
            (fst (ConvertQueryToOpExpression (column_manager (st fresh))
                    one_table))
            UNDEFINED_GROUP handed 0%nat true]
    ∧ snd (InsertExpression handed 0%nat UNDEFINED_GROUP) = true.
Proof.
  apply (InsertQueryTree_records_new one_table fresh 0%nat scan_world).
  vm_compute. reflexivity.
Defined.

(** Ingesting the same statement a second time fails the assertion of
    [InsertQueryTree]: the memo knows the expression. *)
Lemma InsertQueryTree_twice :
  InsertQueryTree (Select 1) scan_world = Err AssertionFailed.
Proof. vm_compute. reflexivity. Qed.

Lemma TransformExpression_no_match_witness :
  TransformExpression 0%nat InnerJoinCommutativity scan_world
  = Ok ([], {| st := st scan_world;
               log := log scan_world
                      ++ [EvTransformExpression 0%nat
                            InnerJoinCommutativity] |}).
Proof.
  apply (TransformExpression_no_match 0%nat InnerJoinCommutativity
           scan_world).
  vm_compute. constructor.
Defined.

Lemma ExploreGroup_marks_explored_witness :
  ∃ g, groups (st (after (ExploreGroup 2 0) scan_world)) !! 0 = Some g
       ∧ HasExplored g = true.
Proof.
  apply (ExploreGroup_marks_explored 2 0 scan_world tt).
  vm_compute. reflexivity.
Defined.

Lemma ImplementGroup_marks_implemented_witness :
  ∃ g, groups (st (after (ImplementGroup 2 0) scan_world)) !! 0 = Some g
       ∧ HasImplemented g = true.
Proof.
  apply (ImplementGroup_marks_implemented 2 0 scan_world tt).
  vm_compute. reflexivity.
Defined.

Lemma ExploreGroup_applies_logical_rules_only_witness :
  ∃ evs,
    log (after (ExploreGroup 4 2)
           join_query_world)
    = log join_query_world ++ evs
    ∧ Forall exploration_event evs.
Proof.
  apply (ExploreGroup_applies_logical_rules_only 4 2
           join_query_world tt).
  vm_compute. reflexivity.
Defined.

Lemma ImplementGroup_applies_logical_rules_only_witness :
  ∃ evs,
    log (after (ImplementGroup 2 0) scan_world) = log scan_world ++ evs
    ∧ Forall exploration_event evs.
Proof.
  apply (ImplementGroup_applies_logical_rules_only 2 0 scan_world tt).
  vm_compute. reflexivity.
Defined.

Lemma ImplementExpression_applies_physical_rules_witness :
  ∃ evs children_evs,
    log implemented_world = log scan_world ++ evs ++ children_evs
    ∧ applied_rules evs
      = (λ rule, (0%nat, rule)) <$> physical_implementation_rules_
    ∧ Forall exploration_event children_evs.
Proof.
  apply (ImplementExpression_applies_physical_rules 1 0%nat scan_world tt).
  vm_compute. reflexivity.
Defined.

Lemma set_group_id_groups s p g : groups (set_group_id s p g) = groups s.
Proof. unfold set_group_id. destruct (gexprs s !! p); reflexivity. Qed.

(** The memo of the catalogue creates no best-expression binding. *)
Lemma simple_insert_no_bindings (s : State) gexpr target :
  no_bindings s → no_bindings (fst (InsertExpression s gexpr target)).
Proof.
  intros Hs. change (no_bindings (fst (simple_insert s gexpr target))).
  unfold simple_insert.
  destruct (gexprs s !! gexpr) as [e|]; [|exact Hs].
  assert (∀ g, no_bindings (set_group_id s gexpr g)) as Hset.
  { intros g id grp. rewrite set_group_id_groups. apply Hs. }
  destruct (list_find _ (gexprs s)) as [[i e']|].
  { destruct (Op e); apply Hset. }
  assert (∀ g,
    no_bindings
      (set_group_id
         {| groups :=
              <[g := add_expression (default empty_group (groups s !! g))
                       gexpr]> (groups s);
            gexprs := gexprs s;
            column_manager := column_manager s |} gexpr g)) as Hnew.
  { intros g id grp. rewrite set_group_id_groups. simpl.
    rewrite lookup_insert. destruct (decide (g = id)) as [<-|_].
    - intros [= <-]. simpl.
      destruct (groups s !! g) as [g0|] eqn:Hg0; simpl;
        [exact (Hs _ _ Hg0) | reflexivity].
    - apply Hs. }
  destruct (Op e); first [apply Hset | apply Hnew].
Qed.

Lemma no_bindings_fresh : no_bindings (st fresh).
Proof. intros id g Hg. simpl in Hg. rewrite lookup_empty in Hg. discriminate. Qed.

Lemma exploration_frame_witness :
  no_bindings
    (st (after (ExploreGroup 4 2;; ImplementGroup 4 2)
           join_query_world)).
Proof.
  refine (exploration_frame no_bindings _ _ _ _ 4 2
            join_query_world tt _ _ _).
  - intros s e Hs. exact Hs.
  - apply simple_insert_no_bindings.
  - intros s id g. apply (no_bindings_flag Group_SetExplorationFlag).
    reflexivity.
  - intros s id g. apply (no_bindings_flag Group_SetImplementationFlag).
    reflexivity.
  - vm_compute. reflexivity.
  - apply (InsertQueryTree_keeps_no_bindings simple_insert_no_bindings
             two_tables fresh 2%nat join_query_world).
    + vm_compute. reflexivity.
    + apply no_bindings_fresh.
Defined.

Lemma BuildPelotonPlanTree_never_plans_witness :
  ∃ f, BuildPelotonPlanTree 5 [one_table; two_tables] fresh = Err f.
Proof.
  apply (BuildPelotonPlanTree_never_plans simple_insert_no_bindings 5
           one_table [two_tables] fresh).
  apply no_bindings_fresh.
Defined.

Lemma UpDivide_rounds_up_witness :
  ∃ q, BloomFilterCodegenTest.UpDivide 512 8 = Some q
       ∧ 8 * (q - 1) < 512 ≤ 8 * q.
Proof.
  apply (UpDivide_rounds_up 512 8); vm_compute; congruence.
Defined.

Lemma CreateTable_columns_witness :
  ∃ n : nat,
    BloomFilterCodegenTest.UpDivide 512 8 = Some (Z.of_nat n)
    ∧ ∀ fuel, (n < fuel)%nat →
        BloomFilterCodegenTest.CreateTable fuel 8 512
        = Some (BloomFilterCodegenTest.bigint_column 8 <$> seq 0 n).
Proof.
  apply (CreateTable_columns 8 512); vm_compute; congruence.
Defined.

(** The two tables of the performance test: 64 and 1 columns. *)
Lemma CreateTable_test_tables :
  option_map (@length _) (BloomFilterCodegenTest.CreateTable 65 8 512)
    = Some 64%nat
  ∧ BloomFilterCodegenTest.UpDivide 512 8 = Some 64
  ∧ option_map (map BloomFilterCodegenTest.column_name)
      (BloomFilterCodegenTest.CreateTable 2 8 8) = Some ["c0"]
  ∧ BloomFilterCodegenTest.UpDivide 8 8 = Some 1.
Proof. vm_compute. auto. Qed.

Lemma ExploreGroup_explores_physical_witness :
  ExploreGroup 1 0 join_world = Err AssertionFailed.
Proof.
  apply (ExploreGroup_explores_physical 0 0 join_world
           {| GetExpressions := [0%nat];
              HasExplored := false;
              HasImplemented := false;
              lowest_cost_expressions := ∅ |}
           0%nat [] (expression (PhysicalScan 1) [] 0 []));
    vm_compute; reflexivity.
Defined.

Lemma ExploreExpression_fixpoint_witness :
  ExploreExpression 1 0%nat scan_world
  = Ok (tt, {| st := st scan_world;
               log := log scan_world
                      ++ (EvTransformExpression 0%nat
                            <$> logical_transformation_rules_) |}).
Proof.
  apply (ExploreExpression_fixpoint 0 0%nat scan_world
           (expression (LogicalGet 1) [] 0 [])).
  - vm_compute. reflexivity.
  - vm_compute. reflexivity.
  - apply Forall_cons. split; [vm_compute; constructor | constructor].
  - vm_compute. constructor.
Defined.

Lemma set_group_id_store s p g :
  length (gexprs (set_group_id s p g)) = length (gexprs s).
Proof.
  unfold set_group_id. destruct (gexprs s !! p); [|reflexivity].
  simpl. apply length_insert.
Qed.

(** The memo of the catalogue keeps the store of expressions. *)
Lemma simple_insert_keeps_store (s : State) gexpr target :
  length (gexprs (fst (InsertExpression s gexpr target)))
  = length (gexprs s).
Proof.
  change (length (gexprs (fst (simple_insert s gexpr target)))
          = length (gexprs s)).
  unfold simple_insert.
  destruct (gexprs s !! gexpr) as [e|]; [|reflexivity].
  destruct (list_find _ (gexprs s)) as [[i e']|];
    destruct (Op e); simpl; rewrite set_group_id_store; reflexivity.
Qed.

Lemma RecordTransformedExpression_allocates_witness :
  length (gexprs (st (after (RecordTransformedExpression logical_join UNDEF)
                        fresh)))
  = (length (gexprs (st fresh)) + node_count logical_join)%nat
  ∧ length (gexprs (st (after (RecordTransformedExpression logical_join UNDEF)
                          fresh)))
    = 3%nat.
Proof.
  apply (RecordTransformedExpression_allocates simple_insert_keeps_store
           logical_join UNDEF fresh 2%nat true
           (after (RecordTransformedExpression logical_join UNDEF) fresh)).
  vm_compute. reflexivity.
Defined.

(** The memo of the catalogue changes no operator of the store. *)
Lemma set_group_id_logical s p g :
  logical_memo s → logical_memo (set_group_id s p g).
Proof.
  intros Hs. unfold set_group_id.
  destruct (gexprs s !! p) as [e|] eqn:He; [|exact Hs].
  intros q e'. simpl. intros Hq.
  apply list_lookup_insert_Some in Hq as [(_ & <- & _)|[_ Hq]].
  - exact (Hs _ _ He).
  - exact (Hs _ _ Hq).
Qed.

Lemma simple_insert_logical (s : State) gexpr target :
  logical_memo s → logical_memo (fst (InsertExpression s gexpr target)).
Proof.
  intros Hs. change (logical_memo (fst (simple_insert s gexpr target))).
  unfold simple_insert.
  destruct (gexprs s !! gexpr) as [e|]; [|exact Hs].
  destruct (list_find _ (gexprs s)) as [[i e']|];
    destruct (Op e); simpl; apply set_group_id_logical; exact Hs.
Qed.

(** Its bindings are the operator of the expression over leaves. *)
Lemma bindings_logical (s : State) gexpr (pattern : Pattern) :
  logical_memo s →
  Forall (λ plan, all_logical plan = true) (ItemBindings s gexpr pattern).
Proof.
  intros Hs.
  change (Forall (λ plan, all_logical plan = true) (bindings s gexpr pattern)).
  unfold bindings.
  destruct (gexprs s !! gexpr) as [e|] eqn:He; [|constructor].
  destruct (pattern (Op e)); [|constructor].
  apply Forall_cons. split; [|constructor].
  destruct (Hs _ _ He) as [Hlogical Hphysical].
  cbn [all_logical]. rewrite Hlogical, Hphysical. simpl.
  induction (GetChildGroupIDs e) as [|g gs IH]; [reflexivity | exact IH].
Qed.

Lemma InnerJoinCommutativity_logical (rule : Rule) (plan : OpExpression) :
  rule ∈ logical_transformation_rules_ →
  all_logical plan = true →
  Forall (λ out, all_logical out = true) (Transform rule plan).
Proof.
  intros Hrule Hplan.
  change (rule ∈ [InnerJoinCommutativity]) in Hrule.
  apply list_elem_of_singleton in Hrule as ->.
  destruct plan as [o children]. simpl.
  destruct o; try constructor.
  destruct children as [|a [|b [|c children]]]; try constructor; [|constructor].
  cbn [all_logical forallb] in *.
  destruct (all_logical a), (all_logical b); auto.
Qed.

Lemma convert_query_logical (cm : ColumnManager) (tree : SQLStatement) :
  all_logical (fst (ConvertQueryToOpExpression cm tree)) = true.
Proof. destruct tree; reflexivity. Qed.

Lemma logical_memo_fresh : logical_memo (st fresh).
Proof. intros gexpr e Hgexpr. discriminate. Qed.

Lemma logical_memo_join_query_world : logical_memo (st join_query_world).
Proof.
  apply (InsertQueryTree_keeps_logical simple_insert_logical
           convert_query_logical two_tables fresh 2%nat join_query_world).
  - apply logical_memo_fresh.
  - vm_compute. reflexivity.
Qed.


(** On the two-table query the three calls return: exploration records
    the commuted join in the root's group, and every expression of the
    memo is logical afterwards. *)
Lemma exploration_of_join_query :
  (∃ w', ExploreExpression 4 2%nat join_query_world = Ok (tt, w'))
  ∧ (∃ w', ExploreGroup 4 2 join_query_world = Ok (tt, w'))
  ∧ (∃ w', ImplementGroup 4 2 join_query_world = Ok (tt, w'))
  ∧ Op <$> gexprs (st (after (ExploreGroup 4 2;; ImplementGroup 4 2)
                         join_query_world))
    = [LogicalGet 1; LogicalGet 2; LogicalInnerJoin;
       Leaf 1; Leaf 0; LogicalInnerJoin;
       Leaf 0; Leaf 1; LogicalInnerJoin].
Proof.
  split; [|split; [|split]]; [eexists..|]; vm_compute; reflexivity.
Qed.

End MoreWitnesses.
